(** * grsync: the task wrapper around an rsync process (task.go)

    A shallow embedding of [task.go]: the line framer [scanLines], the two
    output processors, [getTaskSpeed], [GetFileList] and the control flow of
    [Run], together with the parts of Go's standard library they call
    ([bytes.IndexAny], [strings.Split], [strings.TrimRight], [strconv.Atoi],
    [bufio.Scanner], [bufio.Reader.ReadString] and the leftmost-first
    matching of package [regexp]).  Two types that [task.go] uses are
    declared in files that are not among the sources: the pattern extractor
    [matcher] and the process handle [Rsync]; both are modelled after the
    specification and marked as such.

    Conventions.  A Go [string] is a [string] (a sequence of bytes), a
    [[]byte] is a [list ascii], a Go [int] is a [Z] (64 bits where the width
    matters), a [nil] slice or a [nil] error is [None].  A loop whose number
    of iterations depends on the input takes a bound computed from the
    input and returns [None] if the bound is reached; the lemmas
    [processStdout_returns] and [processStderr_returns] show that it never
    is.  The mutex of a [Task] has no content here: every step of a
    processor and every snapshot is one function on the value of the task. *)

From Stdlib Require Import ZArith List Bool Ascii String Lia.
Import ListNotations.

Local Open Scope string_scope.
Local Open Scope list_scope.
Local Open Scope Z_scope.

(** ** Bytes and slices *)

Definition LF : ascii := "010"%char.
Definition CR : ascii := "013"%char.

Definition len {A : Type} (l : list A) : Z := Z.of_nat (List.length l).

(** [data[i]] for an index that is in range (the callers below check it). *)
Definition index (data : list ascii) (i : Z) : ascii :=
  nth (Z.to_nat i) data "000"%char.

(** [data[lo:hi]]. *)
Definition slice (data : list ascii) (lo hi : Z) : list ascii :=
  firstn (Z.to_nat (hi - lo)) (skipn (Z.to_nat lo) data).

Definition inCutset (chars : list ascii) (c : ascii) : bool :=
  existsb (Ascii.eqb c) chars.

(** [bytes.IndexAny(data, chars)] for a [chars] made of ASCII characters: the
    index of the first byte of [data] that occurs in [chars], or [-1]. *)
Fixpoint IndexAny (data : list ascii) (chars : list ascii) : Z :=
  match data with
  | [] => -1
  | c :: rest =>
      if inCutset chars c then 0
      else let i := IndexAny rest chars in
           if i <? 0 then -1 else i + 1
  end.

(** ** The line framer *)

Inductive error : Type :=
| ErrEOF
| ErrClosed
| ErrTooLong
| ErrBadAdvance
| ErrSyntax
| ErrRange
| ErrOther (msg : string).

(** [func scanLines(data []byte, atEOF bool) (advance int, token []byte, err error)] *)
Definition scanLines (data : list ascii) (atEOF : bool)
  : Z * option (list ascii) * option error :=
  if atEOF && (len data =? 0) then (0, None, None)
  else
    let i := IndexAny data [CR; LF] in
    if 0 <=? i then
      if Ascii.eqb (index data i) LF then
        (i + 1, Some (slice data 0 i), None)
      else
        let advance := i + 1 in
        let advance :=
          if (i + 1 <? len data) && Ascii.eqb (index data (i + 1)) LF
          then advance + 1 else advance in
        (advance, Some (slice data 0 i), None)
    else if atEOF then (len data, Some data, None)
    else (0, None, None).

Definition isTerminator (c : ascii) : bool := inCutset [CR; LF] c.

(** ** Strings (package strings, on byte strings) *)

Definition bytes (s : string) : list ascii := list_ascii_of_string s.

(** [string(b)] for a byte slice [b]. *)
Definition gostring (b : list ascii) : string := string_of_list_ascii b.

Definition slen (s : string) : Z := Z.of_nat (String.length s).

(** [s[lo:hi]] on a string, for [lo <= hi] (byte offsets as [nat]). *)
Definition substr (s : string) (lo hi : nat) : string :=
  substring lo (hi - lo) s.

Fixpoint dropBytes (n : nat) (s : string) : string :=
  match n, s with
  | O, _ => s
  | S n', String _ s' => dropBytes n' s'
  | S _, EmptyString => EmptyString
  end.

(** [strings.Split(s, sep)] for a separator [sep] of one byte: the pieces
    between the occurrences of [sep], one more piece than there are
    occurrences. *)
Fixpoint Split (s : string) (sep : ascii) : list string :=
  match s with
  | EmptyString => [EmptyString]
  | String c s' =>
      if Ascii.eqb c sep then EmptyString :: Split s' sep
      else match Split s' sep with
           | piece :: pieces => String c piece :: pieces
           | [] => [String c EmptyString]
           end
  end.

(** [strings.TrimRight(s, cutset)] for a cutset of ASCII characters: [s]
    without its longest suffix made of bytes of [cutset]. *)
Fixpoint TrimRight (s : string) (cutset : string) : string :=
  match s with
  | EmptyString => EmptyString
  | String c s' =>
      match TrimRight s' cutset with
      | EmptyString =>
          if inCutset (bytes cutset) c then EmptyString
          else String c EmptyString
      | rest => String c rest
      end
  end.

(** ** Integers (strconv.Atoi, on a 64-bit platform) *)

Definition intSize : Z := 64.

Definition byteZ (c : ascii) : Z := Z.of_N (N_of_ascii c).

(** The fast path of [Atoi]: the digits are accumulated without any check
    for overflow, a byte that is not a digit is a syntax error. *)
Fixpoint atoiDigits (s : string) (n : Z) : option Z :=
  match s with
  | EmptyString => Some n
  | String ch s' =>
      let ch := (byteZ ch - 48) mod 256 in
      if 9 <? ch then None else atoiDigits s' (n * 10 + ch)
  end.

Definition maxUint64 : Z := 2 ^ 64 - 1.

(** The loop of [strconv.ParseUint(s, 10, 0)] over the bytes of [s]; the
    accumulator [n] is a [uint64]. *)
Fixpoint parseUintDigits (s : string) (n : Z) : Z * option error :=
  match s with
  | EmptyString => (n, None)
  | String c s' =>
      let c := byteZ c in
      if (48 <=? c) && (c <=? 57) then
        let d := c - 48 in
        let cutoff := maxUint64 / 10 + 1 in
        if cutoff <=? n then (maxUint64, Some ErrRange)
        else
          let n := n * 10 in
          let n1 := (n + d) mod 2 ^ 64 in
          if (n1 <? n) || (maxUint64 <? n1) then (maxUint64, Some ErrRange)
          else parseUintDigits s' n1
      else (0, Some ErrSyntax)
  end.

Definition ParseUint (s : string) : Z * option error :=
  match s with
  | EmptyString => (0, Some ErrSyntax)
  | _ => parseUintDigits s 0
  end.

(** [strconv.ParseInt(s, 10, 0)]. *)
Definition ParseInt (s : string) : Z * option error :=
  match s with
  | EmptyString => (0, Some ErrSyntax)
  | String s0 rest =>
      let neg := Ascii.eqb s0 "-" in
      let s' := if Ascii.eqb s0 "+" || neg then rest else s in
      match ParseUint s' with
      | (_, Some ErrSyntax) => (0, Some ErrSyntax)
      | (un, _) =>
          let cutoff := 2 ^ (intSize - 1) in
          if negb neg && (cutoff <=? un) then (cutoff - 1, Some ErrRange)
          else if neg && (cutoff <? un) then (- cutoff, Some ErrRange)
          else (if neg then - un else un, None)
      end
  end.

(** [strconv.Atoi(s)]: the value and the error. *)
Definition Atoi (s : string) : Z * option error :=
  let sLen := slen s in
  if (0 <? sLen) && (sLen <? 19) then
    match s with
    | EmptyString => (0, Some ErrSyntax)
    | String s0 rest =>
        let signed := Ascii.eqb s0 "-" || Ascii.eqb s0 "+" in
        let digits := if signed then rest else s in
        if signed && (slen digits <? 1) then (0, Some ErrSyntax)
        else match atoiDigits digits 0 with
             | None => (0, Some ErrSyntax)
             | Some n => (if Ascii.eqb s0 "-" then - n else n, None)
             end
    end
  else ParseInt s.

(** ** UTF-8 (unicode/utf8.DecodeRuneInString) *)

Definition rune : Type := Z.
Definition RuneError : rune := 65533.

(** The table [first] of package utf8 for a leading byte that starts a
    sequence of several bytes: the length of the sequence and the range
    accepted for its second byte.  [None] for an ASCII or an invalid byte. *)
Definition firstInfo (s0 : Z) : option (nat * Z * Z) :=
  if (194 <=? s0) && (s0 <=? 223) then Some (2%nat, 128, 191)
  else if s0 =? 224 then Some (3%nat, 160, 191)
  else if (225 <=? s0) && (s0 <=? 236) then Some (3%nat, 128, 191)
  else if s0 =? 237 then Some (3%nat, 128, 159)
  else if (238 <=? s0) && (s0 <=? 239) then Some (3%nat, 128, 191)
  else if s0 =? 240 then Some (4%nat, 144, 191)
  else if (241 <=? s0) && (s0 <=? 243) then Some (4%nat, 128, 191)
  else if s0 =? 244 then Some (4%nat, 128, 143)
  else None.

Definition isCont (b : Z) : bool := (128 <=? b) && (b <=? 191).

(** The first rune of [s] and its width in bytes; width 0 at the end of the
    text, [RuneError] with width 1 for a byte that starts no valid
    encoding. *)
Definition DecodeRuneInString (s : string) : rune * nat :=
  match s with
  | EmptyString => (RuneError, 0%nat)
  | String c0 s1 =>
      let b0 := byteZ c0 in
      match firstInfo b0 with
      | None => (if b0 <? 128 then b0 else RuneError, 1%nat)
      | Some (sz, lo, hi) =>
          match s1 with
          | EmptyString => (RuneError, 1%nat)
          | String c1 s2 =>
              let b1 := byteZ c1 in
              if (b1 <? lo) || (hi <? b1) then (RuneError, 1%nat)
              else if (sz <=? 2)%nat then
                ((Z.land b0 31) * 64 + Z.land b1 63, 2%nat)
              else
                match s2 with
                | EmptyString => (RuneError, 1%nat)
                | String c2 s3 =>
                    let b2 := byteZ c2 in
                    if negb (isCont b2) then (RuneError, 1%nat)
                    else if (sz <=? 3)%nat then
                      ((Z.land b0 15) * 4096 + (Z.land b1 63) * 64
                       + Z.land b2 63, 3%nat)
                    else
                      match s3 with
                      | EmptyString => (RuneError, 1%nat)
                      | String c3 _ =>
                          let b3 := byteZ c3 in
                          if negb (isCont b3) then (RuneError, 1%nat)
                          else
                            ((Z.land b0 7) * 262144 + (Z.land b1 63) * 4096
                             + (Z.land b2 63) * 64 + Z.land b3 63, 4%nat)
                      end
                end
          end
      end
  end.

(** ** Regular expressions (package regexp, leftmost-first matching)

    The patterns of [task.go] are written as syntax trees, with the operators
    of package [regexp/syntax] that they use.  Matching is by backtracking
    with the priorities of the pattern (a repetition first tries to match
    once more), from each starting position in turn: this is the
    leftmost-first match that package [regexp] returns.  Positions are byte
    offsets; the text is read rune by rune. *)

Module Regexp.

Inductive Regexp : Type :=
| EmptyMatch                                   (* matches the empty string *)
| Literal (c : ascii)                          (* an ASCII character *)
| CharClass (ranges : list (ascii * ascii))    (* [a-z...] over ASCII *)
| AnyCharNotNL                                 (* . *)
| BeginText                                    (* ^ *)
| Capture (idx : nat) (r : Regexp)             (* ( ) numbered from 1 *)
| Star (r : Regexp)                            (* r* *)
| Plus (r : Regexp)                            (* r+ *)
| Quest (r : Regexp)                           (* r? *)
| Repeat (n : nat) (r : Regexp)                (* r{n} *)
| Concat (r1 r2 : Regexp)
| Alternate (r1 r2 : Regexp).

(** The positions of the groups: entry [i] is the pair of offsets of group
    [i] (group 0 is the whole match), [None] for a group that did not take
    part in the match. *)
Definition Caps : Type := list (option (nat * nat)).

Fixpoint setCap (i : nat) (v : nat * nat) (c : Caps) : Caps :=
  match i, c with
  | O, _ :: c' => Some v :: c'
  | O, [] => [Some v]
  | S i', x :: c' => x :: setCap i' v c'
  | S i', [] => None :: setCap i' v []
  end.

Definition Cont : Type := nat -> string -> Caps -> option Caps.
Definition Matcher : Type := nat -> string -> Caps -> Cont -> option Caps.

Definition orElse {A : Type} (a b : option A) : option A :=
  match a with
  | Some x => Some x
  | None => b
  end.

Definition inRanges (ranges : list (ascii * ascii)) (r : rune) : bool :=
  existsb (fun lh => (byteZ (fst lh) <=? r) && (r <=? byteZ (snd lh))) ranges.

(** One rune that satisfies [p]. *)
Definition oneRune (p : rune -> bool) : Matcher :=
  fun pos s c k =>
    let '(r, w) := DecodeRuneInString s in
    match w with
    | O => None
    | _ => if p r then k (pos + w)%nat (dropBytes w s) c else None
    end.

(** Greedy repetition of [step]; an iteration that consumes nothing is not
    taken.  [fuel] bounds the number of iterations and is the number of bytes
    left, each iteration consuming one at least. *)
Fixpoint star (step : Matcher) (fuel : nat) : Matcher :=
  fun pos s c k =>
    match fuel with
    | O => k pos s c
    | S fuel' =>
        orElse
          (step pos s c
             (fun pos' s' c' =>
                if (pos' =? pos)%nat then None
                else star step fuel' pos' s' c' k))
          (k pos s c)
    end.

Fixpoint times (step : Matcher) (n : nat) : Matcher :=
  fun pos s c k =>
    match n with
    | O => k pos s c
    | S n' => step pos s c (fun pos' s' c' => times step n' pos' s' c' k)
    end.

(** [exec r pos s c k]: match [r] at offset [pos], where the text that remains
    is [s], then go on with [k]. *)
Fixpoint exec (r : Regexp) : Matcher :=
  fun pos s c k =>
    match r with
    | EmptyMatch => k pos s c
    | Literal a => oneRune (fun x => x =? byteZ a) pos s c k
    | CharClass ranges => oneRune (inRanges ranges) pos s c k
    | AnyCharNotNL => oneRune (fun x => negb (x =? 10)) pos s c k
    | BeginText => if (pos =? 0)%nat then k pos s c else None
    | Capture idx r' =>
        exec r' pos s c (fun pos' s' c' => k pos' s' (setCap idx (pos, pos') c'))
    | Star r' => star (exec r') (String.length s) pos s c k
    | Plus r' =>
        exec r' pos s c
          (fun pos' s' c' => star (exec r') (String.length s') pos' s' c' k)
    | Quest r' => orElse (exec r' pos s c k) (k pos s c)
    | Repeat n r' => times (exec r') n pos s c k
    | Concat r1 r2 => exec r1 pos s c (fun pos' s' c' => exec r2 pos' s' c' k)
    | Alternate r1 r2 => orElse (exec r1 pos s c k) (exec r2 pos s c k)
    end.

Fixpoint NumSubexp (r : Regexp) : nat :=
  match r with
  | Capture idx r' => Nat.max idx (NumSubexp r')
  | Star r' | Plus r' | Quest r' | Repeat _ r' => NumSubexp r'
  | Concat r1 r2 | Alternate r1 r2 => Nat.max (NumSubexp r1) (NumSubexp r2)
  | _ => O
  end.

(** The match that starts at [pos] exactly, if there is one. *)
Definition matchAt (r : Regexp) (pos : nat) (s : string) : option Caps :=
  exec r pos s (repeat None (S (NumSubexp r)))
    (fun pos' _ c => Some (setCap 0 (pos, pos') c)).

(** The leftmost match that starts at [pos] or later; [s] is the text from
    [pos] on and [fuel] its length. *)
Fixpoint search (r : Regexp) (fuel : nat) (pos : nat) (s : string)
  : option Caps :=
  match matchAt r pos s with
  | Some c => Some c
  | None =>
      match fuel with
      | O => None
      | S fuel' =>
          let '(_, w) := DecodeRuneInString s in
          match w with
          | O => None
          | _ => search r fuel' (pos + w)%nat (dropBytes w s)
          end
      end
  end.

(** [re.doExecute] on the string [s] from offset [pos]. *)
Definition doExecute (r : Regexp) (s : string) (pos : nat) : option Caps :=
  search r (String.length s - pos) pos (dropBytes pos s).

(** The texts of the groups of a match, the empty string for a group that
    took no part. *)
Definition submatches (s : string) (c : Caps) : list string :=
  map (fun g => match g with
                | Some (lo, hi) => substr s lo hi
                | None => EmptyString
                end) c.

Definition MatchString (r : Regexp) (s : string) : bool :=
  match doExecute r s 0 with
  | Some _ => true
  | None => false
  end.

(** [re.FindStringSubmatch(s)]: [None] is the nil slice. *)
Definition FindStringSubmatch (r : Regexp) (s : string)
  : option (list string) :=
  option_map (submatches s) (doExecute r s 0).

(** The loop of [re.allMatches]: successive matches that do not overlap, [n]
    at most; an empty match right after the previous match is dropped. *)
Fixpoint allMatches (r : Regexp) (s : string) (fuel : nat)
    (pos : nat) (n : nat) (prevMatchEnd : option nat) : list Caps :=
  match fuel with
  | O => []
  | S fuel' =>
      if (0 <? n)%nat && (pos <=? String.length s)%nat then
        match doExecute r s pos with
        | None => []
        | Some c =>
            match nth 0 c None with
            | None => []
            | Some (lo, hi) =>
                if (hi =? pos)%nat then
                  let accept :=
                    match prevMatchEnd with
                    | Some e => negb (lo =? e)%nat
                    | None => true
                    end in
                  let '(_, w) := DecodeRuneInString (dropBytes pos s) in
                  let pos' :=
                    match w with
                    | O => S (String.length s)
                    | _ => (pos + w)%nat
                    end in
                  if accept
                  then c :: allMatches r s fuel' pos' (n - 1) (Some hi)
                  else allMatches r s fuel' pos' n (Some hi)
                else c :: allMatches r s fuel' hi (n - 1) (Some hi)
            end
        end
      else []
  end.

(** The number of matches asked for: all of them for a negative [n]. *)
Definition matchLimit (s : string) (n : Z) : nat :=
  if n <? 0 then S (String.length s) else Z.to_nat n.

(** [re.FindAllStringSubmatch(s, n)]; the empty list is the nil slice. *)
Definition FindAllStringSubmatch (r : Regexp) (s : string) (n : Z)
  : list (list string) :=
  map (submatches s)
      (allMatches r s (String.length s + 2) 0 (matchLimit s n) None).

(** [re.FindAllString(s, n)]. *)
Definition FindAllString (r : Regexp) (s : string) (n : Z) : list string :=
  map (fun c => nth 0 (submatches s c) EmptyString)
      (allMatches r s (String.length s + 2) 0 (matchLimit s n) None).

(** Syntax for the patterns. *)
Definition digit : Regexp := CharClass [("0", "9")]%char.           (* \d *)
Definition space : Regexp :=                                         (* \s *)
  CharClass [("009", "010"); ("012", "013"); (" ", " ")]%char.
Definition letter : Regexp := CharClass [("A", "Z"); ("a", "z")]%char.

Fixpoint seq (rs : list Regexp) : Regexp :=
  match rs with
  | [] => EmptyMatch
  | [r] => r
  | r :: rs' => Concat r (seq rs')
  end.

(** Invariants of a match: [P] holds of the groups while the match goes on,
    [Q] of its result. *)
Definition contOk (P Q : Caps -> Prop) (k : Cont) : Prop :=
  forall pos s c c', P c -> k pos s c = Some c' -> Q c'.

Definition matcherOk (P Q : Caps -> Prop) (step : Matcher) : Prop :=
  forall k, contOk P Q k ->
  forall pos s c c', P c -> step pos s c k = Some c' -> Q c'.

End Regexp.

(** ** The pattern extractor *)

Import Regexp.

(** Modelled from the spec: the type [matcher] of the repository, which
    task.go uses and whose file is not among the sources -- a compiled
    pattern. *)
Record matcher : Type := { regExp : Regexp }.

(** Modelled from the spec: [newMatcher], missing with the type [matcher] --
    wraps the compiled pattern. *)
Definition newMatcher (r : Regexp) : matcher := {| regExp := r |}.

(** Modelled from the spec: the method [Match] of the missing [matcher] --
    true iff the pattern matches anywhere in the line. *)
Definition Match (mt : matcher) (data : string) : bool :=
  MatchString (regExp mt) data.

(** Modelled from the spec: the method [Extract] of the missing [matcher] --
    the text of the first capturing group of the first match, the empty
    string if there is no match. *)
Definition Extract (mt : matcher) (data : string) : string :=
  match FindStringSubmatch (regExp mt) data with
  | Some (_ :: group1 :: _) => group1
  | _ => EmptyString
  end.

(** Modelled from the spec: the method [All] of the missing [matcher] (the
    spec's ExtractAll) -- the full text of all the matches that do not
    overlap, in order. *)
Definition All (mt : matcher) (data : string) : list string :=
  FindAllString (regExp mt) data (-1).

(** Modelled from the spec: the method [ExtractAllStringSubmatch] of the
    missing [matcher] (the spec's ExtractAllGroups) -- [submatchCount]
    occurrences at most, each as the list of its submatches in the layout of
    package regexp: the whole match at index 0, then the groups. *)
Definition ExtractAllStringSubmatch (mt : matcher) (data : string)
    (submatchCount : Z) : list (list string) :=
  FindAllStringSubmatch (regExp mt) data submatchCount.

(** ** State, Log and Task *)

Record State : Type := {
  TimeRemaining : string;
  DownloadedTotal : string;
  Speed : string;
  Progress : Z
}.

Record Log : Type := {
  Stderr : string;
  Stdout : string
}.

(** The fields [state] and [log] of a [Task]; the process handle [rsync] is
    the [Rsync] of [Run] below, and the mutex has no content in a sequential
    run. *)
Record Task : Type := {
  state : State;
  log : Log
}.

(** The [state] and [log] that [NewTask] allocates. *)
Definition NewTask : Task :=
  {| state := {| TimeRemaining := ""; DownloadedTotal := ""; Speed := "";
                 Progress := 0 |};
     log := {| Stderr := ""; Stdout := "" |} |}.

(** [func (t *Task) State() State] *)
Definition Task_State (t : Task) : State := state t.

(** [func (t *Task) Log() Log] *)
Definition Task_Log (t : Task) : Log :=
  {| Stderr := Stderr (log t); Stdout := Stdout (log t) |}.

Definition setDownloadedTotal (v : string) (s : State) : State :=
  {| TimeRemaining := TimeRemaining s; DownloadedTotal := v;
     Speed := Speed s; Progress := Progress s |}.

Definition setProgress (v : Z) (s : State) : State :=
  {| TimeRemaining := TimeRemaining s; DownloadedTotal := DownloadedTotal s;
     Speed := Speed s; Progress := v |}.

Definition setTimeRemaining (v : string) (s : State) : State :=
  {| TimeRemaining := v; DownloadedTotal := DownloadedTotal s;
     Speed := Speed s; Progress := Progress s |}.

Definition setSpeed (v : string) (s : State) : State :=
  {| TimeRemaining := TimeRemaining s; DownloadedTotal := DownloadedTotal s;
     Speed := v; Progress := Progress s |}.

(** ** The stdout processor *)

(** The pattern `(\d+%)`. *)
Definition progressMatcher : matcher :=
  newMatcher (Capture 1 (seq [Plus digit; Literal "%"])).

(** The pattern `(\d+\.\d+.{2}\/s)`. *)
Definition speedMatcher : matcher :=
  newMatcher
    (Capture 1 (seq [Plus digit; Literal "."; Plus digit;
                     Repeat 2 AnyCharNotNL; Literal "/"; Literal "s"])).

(** The pattern `^\s*` followed by the group `\d+.\d+[A-Za-z]*` in
    parentheses. *)
Definition totalMatcher : matcher :=
  newMatcher
    (seq [BeginText; Star space;
          Capture 1 (seq [Plus digit; AnyCharNotNL; Plus digit; Star letter])]).

(** The pattern `(\d+:){2}\d+`. *)
Definition timeRemainingMatcher : matcher :=
  newMatcher
    (seq [Repeat 2 (Capture 1 (seq [Plus digit; Literal ":"])); Plus digit]).

(** [func getTaskSpeed(data [][]string) string] *)
Definition getTaskSpeed (data : list (list string)) : string :=
  if (len data <? 1) || (len (nth 0 data []) <? 2) then ""
  else nth 0 (nth 0 data []) "".

(** [l[0]]; the one use below is under a successful [Match], where the list
    is not empty (lemma [All_nonempty]). *)
Definition index0 (l : list string) : string := nth 0 l "".

(** The body of the loop of [processStdout], on the line [logStr]. *)
Definition stdoutLine (task : Task) (logStr : string) : Task :=
  let st := state task in
  let st :=
    if Match totalMatcher logStr
    then setDownloadedTotal (Extract totalMatcher logStr) st
    else st in
  let st :=
    if Match progressMatcher logStr
    then let tt := Extract progressMatcher logStr in
         setProgress (fst (Atoi (TrimRight tt "%"))) st
    else st in
  let st :=
    if Match timeRemainingMatcher logStr
    then setTimeRemaining (index0 (All timeRemainingMatcher logStr)) st
    else st in
  let st :=
    if Match speedMatcher logStr
    then setSpeed (getTaskSpeed (ExtractAllStringSubmatch speedMatcher logStr 2)) st
    else st in
  {| state := st;
     log := {| Stderr := Stderr (log task);
               Stdout := Stdout (log task) ++ logStr ++ String LF "" |} |}.

(** *** io.Reader

    A stream is the list of the pieces of data that the source of a pipe
    hands over, one piece for each call of [Read] that finds it whole; an
    empty piece is a call that returns no byte and no error, and the end of
    the list is the end of the stream (or the pipe closed). *)

Definition Stream : Type := list (list ascii).

Definition streamBytes (r : Stream) : list ascii := List.concat r.

(** [r.Read(p)] for a destination [p] of [room] bytes: as much of the first
    piece as fits, the remainder being left for the next call. *)
Definition Read (room : Z) (r : Stream)
  : list ascii * option error * Stream :=
  match r with
  | [] => ([], Some ErrEOF, [])
  | chunk :: r' =>
      let n := Z.to_nat (Z.min room (len chunk)) in
      (firstn n chunk, None,
       match skipn n chunk with
       | [] => r'
       | rest => rest :: r'
       end)
  end.

Definition maxConsecutiveEmptyReads : nat := 100.

(** [io.ErrNoProgress] *)
Definition ErrNoProgress : error :=
  ErrOther "multiple Read calls return no data or error".

(** *** bufio.Scanner

    The scanner keeps the bytes read and not yet consumed, [s.buf[s.start:s.end]],
    in a buffer of [len(s.buf)] bytes that starts empty, is first made of
    [startBufSize] bytes and doubles up to [maxScanTokenSize]. *)

Definition SplitFunc : Type :=
  list ascii -> bool -> Z * option (list ascii) * option error.

Record Scanner : Type := {
  sc_r : Stream;                 (* what is left to read *)
  sc_buf : list ascii;           (* s.buf[s.start:s.end] *)
  sc_err : option error;         (* s.err: io.EOF once the end was read *)
  sc_start : Z;                  (* s.start *)
  sc_cap : Z                     (* len(s.buf) *)
}.

Definition NewScanner (r : Stream) : Scanner :=
  {| sc_r := r; sc_buf := []; sc_err := None; sc_start := 0; sc_cap := 0 |}.

Definition maxScanTokenSize : Z := 64 * 1024.

Definition startBufSize : Z := 4096.

(** [s.setErr(err)]: the first error that is not [io.EOF] stays. *)
Definition setErr (old : option error) (e : error) : option error :=
  match old with
  | None | Some ErrEOF => Some e
  | Some _ => old
  end.

Inductive Pass : Type :=
| Token (tok : list ascii) (rest : list ascii)
| Fail (e : error)
| More (rest : list ascii).

(** One call of the split function on what is buffered, as [Scan] does it.
    The scanner also counts the tokens that consume nothing and panics after
    100 of them in a row; a token of [scanLines] consumes a byte at least
    (lemma [scanLines_token_advance]) and the count is left out. *)
Definition trySplit (split : SplitFunc) (buf : list ascii) (atEOF : bool)
  : Pass :=
  if (0 <? len buf) || atEOF then
    match split buf atEOF with
    | (_, _, Some e) => Fail e
    | (advance, token, None) =>
        if (advance <? 0) || (len buf <? advance) then Fail ErrBadAdvance
        else
          let rest := skipn (Z.to_nat advance) buf in
          match token with
          | Some tok => Token tok rest
          | None => More rest
          end
    end
  else More buf.

(** One turn of the loop of [Scan] once [s.err] is set to [e] (the end of the
    stream or an error of the reads): the split function is told that no
    data will follow, and without a token the scan is over. *)
Definition scanEOF (split : SplitFunc) (e : error) (r : Stream)
    (buf : list ascii) (start cap : Z) : option (list ascii) * Scanner :=
  match trySplit split buf true with
  | Token tok rest =>
      (Some tok, {| sc_r := r; sc_buf := rest; sc_err := Some e;
                    sc_start := start + (len buf - len rest);
                    sc_cap := cap |})
  | Fail e' =>
      (None, {| sc_r := r; sc_buf := buf; sc_err := setErr (Some e) e';
                sc_start := start; sc_cap := cap |})
  | More _ =>
      (None, {| sc_r := r; sc_buf := []; sc_err := Some e;
                sc_start := 0; sc_cap := cap |})
  end.

(** Before a read: the data is moved to the beginning of the buffer if
    there is much room before it or none after it; a full buffer is replaced
    by one twice as large, [maxScanTokenSize] at most.  The result is the new
    [s.start] and [len(s.buf)], or [None] where a buffer of
    [maxScanTokenSize] bytes is full ([ErrTooLong]).  [used] is the number of
    bytes held. *)
Definition makeRoom (start cap used : Z) : option (Z * Z) :=
  let start :=
    if (0 <? start) && ((start + used =? cap) || (cap / 2 <? start))
    then 0 else start in
  if start + used =? cap then
    if maxScanTokenSize <=? cap then None
    else
      let newSize := cap * 2 in
      let newSize := if newSize =? 0 then startBufSize else newSize in
      Some (0, Z.min newSize maxScanTokenSize)
  else Some (start, cap).

(** The reads of one turn of the loop of [Scan]: a read that returns no byte
    and no error is tried again, [maxConsecutiveEmptyReads] times at most;
    [loop] counts the empty reads. *)
Fixpoint readLoop (room : Z) (r : Stream) (loop : nat)
  : list ascii * option error * Stream :=
  match r with
  | [] => ([], Some ErrEOF, [])
  | [] :: r' =>
      if (maxConsecutiveEmptyReads <? S loop)%nat
      then ([], Some ErrNoProgress, r')
      else readLoop room r' (S loop)
  | _ :: _ => Read room r
  end.

(** The loop of [Scan] while [s.err] is nil: split what is buffered; without
    a token make room, read, and start again.  Every turn but the last reads
    a byte at least, and [fuel] bounds their number: [None] if the bound is
    reached. *)
Fixpoint scanLoop (split : SplitFunc) (fuel : nat) (r : Stream)
    (buf : list ascii) (start cap : Z)
  : option (option (list ascii) * Scanner) :=
  match trySplit split buf false with
  | Token tok rest =>
      Some (Some tok, {| sc_r := r; sc_buf := rest; sc_err := None;
                         sc_start := start + (len buf - len rest);
                         sc_cap := cap |})
  | Fail e =>
      Some (None, {| sc_r := r; sc_buf := buf; sc_err := Some e;
                     sc_start := start; sc_cap := cap |})
  | More rest =>
      let start := start + (len buf - len rest) in
      match makeRoom start cap (len rest) with
      | None =>
          Some (None, {| sc_r := r; sc_buf := rest; sc_err := Some ErrTooLong;
                         sc_start := start; sc_cap := cap |})
      | Some (start, cap) =>
          match readLoop (cap - (start + len rest)) r 0 with
          | (data, Some e, r') =>
              Some (scanEOF split e r' (rest ++ data) start cap)
          | (data, None, r') =>
              match fuel with
              | O => None
              | S fuel' => scanLoop split fuel' r' (rest ++ data) start cap
              end
          end
      end
  end.

(** [scanner.Scan()]: the token ([scanner.Bytes()]) when it returns true,
    no token when it returns false. *)
Definition Scan (split : SplitFunc) (s : Scanner)
  : option (option (list ascii) * Scanner) :=
  match sc_err s with
  | None =>
      scanLoop split (S (List.length (streamBytes (sc_r s))))
        (sc_r s) (sc_buf s) (sc_start s) (sc_cap s)
  | Some e =>
      Some (scanEOF split e (sc_r s) (sc_buf s) (sc_start s) (sc_cap s))
  end.

(** The tokens of the successive calls of [Scan], until it returns false. *)
Fixpoint scanTokens (split : SplitFunc) (fuel : nat) (s : Scanner)
  : option (list (list ascii)) :=
  match fuel with
  | O => None
  | S fuel' =>
      match Scan split s with
      | Some (Some tok, s') =>
          option_map (cons tok) (scanTokens split fuel' s')
      | Some (None, _) => Some []
      | None => None
      end
  end.

(** The loop [for scanner.Scan() { ... }] of [processStdout]; [None] when
    [fuel] calls of [Scan] do not reach the end. *)
Fixpoint stdoutLoop (fuel : nat) (scanner : Scanner) (task : Task)
  : option Task :=
  match fuel with
  | O => None
  | S fuel' =>
      match Scan scanLines scanner with
      | Some (Some tok, scanner') =>
          stdoutLoop fuel' scanner' (stdoutLine task (gostring tok))
      | Some (None, _) => Some task
      | None => None
      end
  end.

(** [func processStdout(wg *sync.WaitGroup, task *Task, stdout io.Reader)].
    Every token of [scanLines] consumes a byte at least, so that one call of
    [Scan] more than the stream has bytes reaches the end. *)
Definition processStdout (task : Task) (stdout : Stream) : option Task :=
  stdoutLoop (S (List.length (streamBytes stdout))) (NewScanner stdout) task.

(** ** The stderr processor *)

(** A [bufio.Reader]: what is left of the stream and the bytes buffered and
    not yet read, in a buffer of [defaultBufSize] bytes. *)
Record Reader : Type := {
  rd_r : Stream;
  rd_buf : list ascii
}.

Definition NewReader (r : Stream) : Reader := {| rd_r := r; rd_buf := [] |}.

Definition defaultBufSize : Z := 4096.

(** The reads of [b.fill()]: [i] tries are left; after
    [maxConsecutiveEmptyReads] reads without a byte nor an error the error
    is [io.ErrNoProgress]. *)
Fixpoint fillLoop (room : Z) (r : Stream) (i : nat) {struct i}
  : list ascii * option error * Stream :=
  match i with
  | O => ([], Some ErrNoProgress, r)
  | S i' =>
      match r with
      | [] => ([], Some ErrEOF, [])
      | [] :: r' => fillLoop room r' i'
      | _ :: _ => Read room r
      end
  end.

(** [reader.ReadString(delim)] on the bytes buffered [buf] and the stream
    [r]: the bytes up to the first [delim], which is included; where a read
    fails, what was read together with the error.  [acc] holds the full
    buffers met without a [delim].  Every turn but the last reads a byte at
    least, and [fuel] bounds their number: [None] if the bound is reached. *)
Fixpoint readString (delim : ascii) (fuel : nat) (r : Stream)
    (buf acc : list ascii) : option (string * option error * Reader) :=
  let i := IndexAny buf [delim] in
  if 0 <=? i then
    Some (gostring (acc ++ slice buf 0 (i + 1)), None,
          {| rd_r := r; rd_buf := skipn (Z.to_nat (i + 1)) buf |})
  else
    let full := defaultBufSize <=? len buf in
    let acc := if full then acc ++ buf else acc in
    let buf := if full then [] else buf in
    match fillLoop (defaultBufSize - len buf) r maxConsecutiveEmptyReads with
    | (data, Some e, r') =>
        Some (gostring (acc ++ buf ++ data), Some e,
              {| rd_r := r'; rd_buf := [] |})
    | (data, None, r') =>
        match fuel with
        | O => None
        | S fuel' => readString delim fuel' r' (buf ++ data) acc
        end
    end.

Definition ReadString (rd : Reader) (delim : ascii)
  : option (string * option error * Reader) :=
  readString delim (S (List.length (streamBytes (rd_r rd))))
    (rd_r rd) (rd_buf rd) [].

Definition appendStderr (task : Task) (s : string) : Task :=
  {| state := state task;
     log := {| Stderr := Stderr (log task) ++ s; Stdout := Stdout (log task) |} |}.

(** The loop of [processStderr]. *)
Fixpoint stderrLoop (fuel : nat) (reader : Reader) (task : Task)
  : option Task :=
  match fuel with
  | O => None
  | S fuel' =>
      match ReadString reader LF with
      | Some (_, Some _, _) => Some task
      | Some (logStr, None, reader') =>
          stderrLoop fuel' reader' (appendStderr task (logStr ++ String LF ""))
      | None => None
      end
  end.

(** [func processStderr(wg *sync.WaitGroup, task *Task, stderr io.Reader)] *)
Definition processStderr (task : Task) (stderr : Stream) : option Task :=
  stderrLoop (S (List.length (streamBytes stderr))) (NewReader stderr) task.

(** ** The file list *)

(** The pattern of [GetFileList]: the five groups `[rwx-]{10}`, `\d+`,
    `(?:\d+/){2}\d+`, `(?:\d+:){2}\d+` and `.*`, each in parentheses, with
    one space between a group and the next. *)
Definition fileListRegexp : Regexp :=
  seq [Capture 1 (Repeat 10 (CharClass [("r", "r"); ("w", "w"); ("x", "x");
                                        ("-", "-")]%char));
       Literal " ";
       Capture 2 (Plus digit);
       Literal " ";
       Capture 3 (seq [Repeat 2 (seq [Plus digit; Literal "/"]); Plus digit]);
       Literal " ";
       Capture 4 (seq [Repeat 2 (seq [Plus digit; Literal ":"]); Plus digit]);
       Literal " ";
       Capture 5 (Star AnyCharNotNL)].

(** The body of the loop of [GetFileList]: [x[1:]] is the tail of [x]. *)
Definition fileListLine (files : list (list string)) (l : string)
  : list (list string) :=
  if MatchString fileListRegexp l then
    match FindStringSubmatch fileListRegexp l with
    | Some (_ :: groups) => files ++ [groups]
    | _ => files
    end
  else files.

(** [func (t *Task) GetFileList() (files [][]string)] *)
Definition GetFileList (t : Task) : list (list string) :=
  fold_left fileListLine (Split (Stdout (Task_Log t)) LF) [].

(** ** Run

    [Run] is followed from the goroutine that calls it.  The process handle
    is given by the outcome of each of its four operations and by whether
    the stream of each pipe of the started process comes to an end; the two
    output processors are workers that end when their stream does, that is
    when [Run] has closed their pipe, or when the process was started and
    lets that stream end.  A processor whose stream stays open stays in its
    read, and [wg.Wait()] does not return. *)

Inductive Pipe : Type := PipeStdout | PipeStderr.

Definition Pipe_eqb (a b : Pipe) : bool :=
  match a, b with
  | PipeStdout, PipeStdout | PipeStderr, PipeStderr => true
  | _, _ => false
  end.

(** Modelled from the spec: the process handle [t.rsync], of the type
    [Rsync] whose file is not among the sources -- given by what its
    operations [StderrPipe], [StdoutPipe], [Start] and [Wait] return as their
    error ([None] for nil), and for each of the two streams of the started
    process by whether it ends: the process closes its end of the pipe, when
    it exits at the latest, or the pipe stays open (as with a child of the
    process that has inherited it) and the reader waits for ever. *)
Record Rsync : Type := {
  StderrPipe : option error;
  StdoutPipe : option error;
  Start : option error;
  Wait : option error;
  StdoutEnds : bool;
  StderrEnds : bool
}.

Inductive Event : Type :=
| EvStderrPipe
| EvStdoutPipe
| EvGo (p : Pipe)           (* go processStdout / go processStderr *)
| EvAdd (n : Z)             (* wg.Add(n) *)
| EvStart
| EvClose (p : Pipe)
| EvDone (p : Pipe)         (* a processor ends: wg.Done() *)
| EvWgWait                  (* wg.Wait() returns *)
| EvWait.                   (* t.rsync.Wait() *)

Record World : Type := {
  trace : list Event;       (* what happened, in order *)
  closed : list Pipe;       (* the pipes that Run has closed *)
  started : bool;           (* the process was started *)
  workers : list Pipe;      (* the processors that run *)
  counter : Z               (* the counter of the WaitGroup *)
}.

Definition world0 : World :=
  {| trace := []; closed := []; started := false; workers := [];
     counter := 0 |}.

(** A computation that returns, or never does ([None]: it blocks for ever). *)
Definition M (A : Type) : Type := World -> option (A * World).

Definition ret {A : Type} (a : A) : M A := fun w => Some (a, w).

Definition bind {A B : Type} (c : M A) (f : A -> M B) : M B :=
  fun w => match c w with
           | Some (a, w') => f a w'
           | None => None
           end.

Notation "x <- c ;; k" := (bind c (fun x => k))
  (at level 61, c at next level, right associativity).
Notation "c ;;; k" := (bind c (fun _ => k))
  (at level 61, right associativity).

Definition emit (e : Event) : M unit :=
  fun w => Some (tt, {| trace := trace w ++ [e]; closed := closed w;
                        started := started w; workers := workers w;
                        counter := counter w |}).

Definition callStderrPipe (r : Rsync) : M (option error) :=
  emit EvStderrPipe ;;; ret (StderrPipe r).

Definition callStdoutPipe (r : Rsync) : M (option error) :=
  emit EvStdoutPipe ;;; ret (StdoutPipe r).

Definition close (p : Pipe) : M unit :=
  fun w => Some (tt, {| trace := trace w ++ [EvClose p];
                        closed := p :: closed w;
                        started := started w; workers := workers w;
                        counter := counter w |}).

Definition go (p : Pipe) : M unit :=
  fun w => Some (tt, {| trace := trace w ++ [EvGo p]; closed := closed w;
                        started := started w; workers := workers w ++ [p];
                        counter := counter w |}).

Definition wgAdd (n : Z) : M unit :=
  fun w => Some (tt, {| trace := trace w ++ [EvAdd n]; closed := closed w;
                        started := started w; workers := workers w;
                        counter := counter w + n |}).

Definition callStart (r : Rsync) : M (option error) :=
  fun w => Some (Start r,
                 {| trace := trace w ++ [EvStart]; closed := closed w;
                    started := match Start r with
                               | None => true
                               | Some _ => started w
                               end;
                    workers := workers w; counter := counter w |}).

(** The stream of the pipe [p] that the started process writes ends. *)
Definition processEnds (r : Rsync) (p : Pipe) : bool :=
  match p with
  | PipeStdout => StdoutEnds r
  | PipeStderr => StderrEnds r
  end.

(** The stream of the pipe [p] ends for its processor: a read fails or
    returns the end of the file, and the processor leaves its loop. *)
Definition streamEnds (r : Rsync) (w : World) (p : Pipe) : bool :=
  existsb (Pipe_eqb p) (closed w) || (started w && processEnds r p).

(** [wg.Wait()]: the processors whose stream ends call [wg.Done()]; the call
    returns when the counter is back to zero, and never otherwise. *)
Definition wgWait (r : Rsync) : M unit :=
  fun w =>
    let ending := filter (streamEnds r w) (workers w) in
    let running := filter (fun p => negb (streamEnds r w p)) (workers w) in
    let n := counter w - len ending in
    if n =? 0 then
      Some (tt, {| trace := trace w ++ map EvDone ending ++ [EvWgWait];
                   closed := closed w; started := started w;
                   workers := running; counter := n |})
    else None.

Definition callWait (r : Rsync) : M (option error) :=
  emit EvWait ;;; ret (Wait r).

(** [func (t *Task) Run() error] *)
Definition Run (r : Rsync) : M (option error) :=
  err <- callStderrPipe r ;;
  match err with
  | Some e => ret (Some e)
  | None =>
      err <- callStdoutPipe r ;;
      match err with
      | Some e => close PipeStderr ;;; ret (Some e)
      | None =>
          go PipeStdout ;;;
          go PipeStderr ;;;
          wgAdd 2 ;;;
          err <- callStart r ;;
          match err with
          | Some e =>
              (* Close pipes to unblock goroutines *)
              close PipeStdout ;;;
              close PipeStderr ;;;
              wgWait r ;;;
              ret (Some e)
          | None =>
              wgWait r ;;;
              callWait r
          end
      end
  end.

(** ** Derived notions used in the statements *)

(** The lines that the scanner of [processStdout] yields on the stream
    [stdout]: the tokens of the calls of [Scan], until it returns false. *)
Definition frameLines (stdout : Stream) : option (list (list ascii)) :=
  scanTokens scanLines (S (List.length (streamBytes stdout)))
    (NewScanner stdout).

(** The record of a listing line: the submatches after the whole match. *)
Definition fileRecord (l : string) : list string :=
  match FindStringSubmatch fileListRegexp l with
  | Some x => tl x
  | None => []
  end.

Definition withStdout (s : string) : Task :=
  {| state := state NewTask; log := {| Stderr := ""; Stdout := s |} |}.

Definition withState (st : State) : Task :=
  {| state := st; log := log NewTask |}.

(** A stream that the pipe hands over in one piece. *)
Definition oneChunk (data : list ascii) : Stream := [data].

(** *** Sample data *)

Definition progressLine : string := "15.17G  10%   92.23MB/s    0:23:54".

Definition progressState : State :=
  {| TimeRemaining := "0:23:54"; DownloadedTotal := "15.17G";
     Speed := "92.23MB/s"; Progress := 10 |}.

(** A progress line without a speed. *)
Definition noSpeedLine : string := "15.17G  10%    0:23:54".

(** A percentage that does not fit an [int]. *)
Definition hugePercentLine : string := "99999999999999999999%".

(** A percentage above 100, as in the name of a file that rsync prints. *)
Definition bigPercentLine : string := "sale-250%.txt".

(** The listing line of the specification: seven spaces before the size. *)
Definition listingLine : string :=
  "-rw-r--r--       1234 2024/01/02 03:04:05 file.txt".

(** The same line with one space between the fields. *)
Definition listingLineOneSpace : string :=
  "-rw-r--r-- 1234 2024/01/02 03:04:05 file.txt".

Definition otherLine : string := "total size is 1234".

Definition listingRecord : list string :=
  ["-rw-r--r--"; "1234"; "2024/01/02"; "03:04:05"; "file.txt"].

Definition nl : string := String LF "".

(** *** Proof automation *)

(** The cases of the four tests of [stdoutLine]. *)
Ltac split_matches logStr :=
  unfold stdoutLine, Task_State;
  destruct (Match totalMatcher logStr);
  destruct (Match progressMatcher logStr);
  destruct (Match timeRemainingMatcher logStr);
  destruct (Match speedMatcher logStr).

(** The bytes that a scanner has still to deliver. *)
Definition pending (s : Scanner) : nat :=
  (List.length (sc_buf s) + List.length (streamBytes (sc_r s)))%nat.

Definition pendingRead (rd : Reader) : nat :=
  (List.length (rd_buf rd) + List.length (streamBytes (rd_r rd)))%nat.

(** What [processStdout] does with the lines of the scanner. *)
Definition stdoutLines (task : Task) (lines : list (list ascii)) : Task :=
  fold_left (fun t tok => stdoutLine t (gostring tok)) lines task.


(** The data of the scanner lies in its buffer. *)
Definition fits (start cap : Z) (buf : list ascii) : Prop :=
  0 <= start /\ start + len buf <= cap.

Definition wfScanner (s : Scanner) : Prop :=
  fits (sc_start s) (sc_cap s) (sc_buf s).

(** No read of the stream returns without a byte. *)
Definition noEmptyRead (r : Stream) : Prop :=
  forallb (fun chunk => match chunk with [] => false | _ => true end) r = true.
(** *** The lines of a stream, after the words of the specification *)

(** What precedes the first terminator, and the rest from that terminator
    on. *)
Fixpoint spanLine (data : list ascii) : list ascii * list ascii :=
  match data with
  | [] => ([], [])
  | c :: rest =>
      if isTerminator c then ([], data)
      else let '(p, q) := spanLine rest in (c :: p, q)
  end.

(** What follows the terminator [c], [q] being what follows the byte [c]: a
    line feed right after a carriage return belongs to the terminator. *)
Definition afterTerminator (c : ascii) (q : list ascii) : list ascii :=
  if Ascii.eqb c CR then
    match q with
    | c' :: q' => if Ascii.eqb c' LF then q' else q
    | [] => []
    end
  else q.

(** The lines of [data] as the specification describes them: a line ends at
    a line feed, at a carriage return, or at a carriage return with the line
    feed that follows it; what the last terminator leaves is a line when it
    is not empty.  [cur] is the beginning of the current line, last byte
    first. *)
Fixpoint specLines (cur : list ascii) (data : list ascii)
  : list (list ascii) :=
  match data with
  | [] => match cur with
          | [] => []
          | _ => [rev cur]
          end
  | c :: rest =>
      if Ascii.eqb c LF then rev cur :: specLines [] rest
      else if Ascii.eqb c CR then
        match rest with
        | c' :: rest' =>
            if Ascii.eqb c' LF then rev cur :: specLines [] rest'
            else rev cur :: specLines [] rest
        | [] => [rev cur]
        end
      else specLines (c :: cur) rest
  end.

(** [scanLines] applied again and again to a buffer that holds the whole
    rest of the stream. *)
Fixpoint framesAtEOF (fuel : nat) (data : list ascii) : list (list ascii) :=
  match fuel with
  | O => []
  | S fuel' =>
      match scanLines data true with
      | (advance, Some tok, _) =>
          tok :: framesAtEOF fuel' (skipn (Z.to_nat advance) data)
      | (_, None, _) => []
      end
  end.

(** No terminator occurs in [p]. *)
Definition clean (p : list ascii) : Prop :=
  forallb (fun c => negb (isTerminator c)) p = true.

(** ** The remaining function of task.go *)

(** [func getTaskProgress(remTotalString string) (int, int)]: the separator
    is the one-byte string "/", the errors of [Atoi] are dropped. *)
Definition getTaskProgress (remTotalString : string) : Z * Z :=
  let info := Split remTotalString "/" in
  if len info <? 2 then (0, 0)
  else (fst (Atoi (nth 0 info "")), fst (Atoi (nth 1 info ""))).

(** ** Further notions used in the statements *)

(** The byte [c] occurs in [s]. *)
Fixpoint containsByte (c : ascii) (s : string) : bool :=
  match s with
  | EmptyString => false
  | String d s' => Ascii.eqb d c || containsByte c s'
  end.

(** The bytes of the terminator that starts with [c], [q] being what
    follows [c]: two for a carriage return with its line feed, one
    otherwise. *)
Definition terminatorWidth (c : ascii) (q : list ascii) : Z :=
  if Ascii.eqb c CR then
    match q with
    | c' :: _ => if Ascii.eqb c' LF then 2 else 1
    | [] => 1
    end
  else 1.

(** The lines as [processStdout] appends them to [Log.Stdout]. *)
Fixpoint joinLines (lines : list (list ascii)) : string :=
  match lines with
  | [] => ""
  | tok :: lines' => (gostring tok ++ nl ++ joinLines lines')%string
  end.

(** One of the four patterns of [processStdout] matches the line. *)
Definition matchesAny (logStr : string) : bool :=
  Match totalMatcher logStr || Match progressMatcher logStr
  || Match timeRemainingMatcher logStr || Match speedMatcher logStr.

(** The text of the leftmost match of the pattern in the line. *)
Definition wholeMatch (mt : matcher) (logStr : string) : string :=
  match FindStringSubmatch (regExp mt) logStr with
  | Some (whole :: _) => whole
  | _ => ""
  end.

(** What [processStderr] appends to [Log.Stderr] for the bytes [data] of the
    stream: every line that ends with a line feed, with that line feed and
    one more; [cur] is the beginning of the current line, last byte first. *)
Fixpoint stderrKept (cur : list ascii) (data : list ascii) : list ascii :=
  match data with
  | [] => []
  | c :: rest =>
      if Ascii.eqb c LF then rev cur ++ [LF; LF] ++ stderrKept [] rest
      else stderrKept (c :: cur) rest
  end.

(** No line feed occurs in [p]. *)
Definition noLF (p : list ascii) : Prop :=
  forallb (fun c => negb (inCutset [LF] c)) p = true.




Definition Event_eqb (a b : Event) : bool :=
  match a, b with
  | EvStderrPipe, EvStderrPipe | EvStdoutPipe, EvStdoutPipe
  | EvStart, EvStart | EvWgWait, EvWgWait | EvWait, EvWait => true
  | EvGo p, EvGo q | EvClose p, EvClose q | EvDone p, EvDone q => Pipe_eqb p q
  | EvAdd n, EvAdd k => n =? k
  | _, _ => false
  end.

Definition occurs (a : Event) (tr : list Event) : bool :=
  existsb (Event_eqb a) tr.

(** [a] occurs in [tr] before the first [b]. *)
Fixpoint precedes (a b : Event) (tr : list Event) : bool :=
  match tr with
  | [] => false
  | e :: tr' =>
      if Event_eqb e b then false
      else Event_eqb e a || precedes a b tr'
  end.

(** Where [b] occurs in [tr], [a] occurs before it. *)
Definition orderedIn (a b : Event) (tr : list Event) : bool :=
  implb (occurs b tr) (precedes a b tr).

(** No carriage return of [data] is followed at once by a line feed. *)
Fixpoint noCRLF (data : list ascii) : bool :=
  match data with
  | [] => true
  | c :: rest =>
      negb (Ascii.eqb c CR
            && match rest with
               | c' :: _ => Ascii.eqb c' LF
               | [] => false
               end)
      && noCRLF rest
  end.

(** Every line of [data] is shorter than the largest buffer of a scanner. *)
Definition shortLines (data : list ascii) : Prop :=
  Forall (fun l => len l < maxScanTokenSize) (specLines [] data).
(** * Properties *)

(** ** The library functions on sample inputs *)

Example IndexAny_sample :
  IndexAny (bytes "ab" ++ [CR; LF]) [CR; LF] = 2 /\
  IndexAny (bytes "ab") [CR; LF] = -1.
Proof.
  split; reflexivity.
Qed.

Example Split_sample :
  Split ("a" ++ nl ++ "b" ++ nl) LF = ["a"; "b"; ""] /\ Split "" LF = [""].
Proof.
  split; reflexivity.
Qed.

Example TrimRight_sample :
  TrimRight "10%" "%" = "10" /\ TrimRight "%1%%" "%" = "%1" /\
  TrimRight "%%" "%" = "".
Proof.
  repeat split; reflexivity.
Qed.

Example Atoi_sample :
  Atoi "10" = (10, None) /\
  Atoi "-7" = (-7, None) /\
  Atoi "" = (0, Some ErrSyntax) /\
  Atoi "1x" = (0, Some ErrSyntax) /\
  Atoi "9223372036854775807" = (9223372036854775807, None) /\
  Atoi "9223372036854775808" = (9223372036854775807, Some ErrRange) /\
  Atoi "-9223372036854775809" = (-9223372036854775808, Some ErrRange).
Proof.
  repeat split; vm_compute; reflexivity.
Qed.

(** U+00E9 on two bytes, a continuation byte alone, a truncated sequence. *)
Example DecodeRuneInString_sample :
  DecodeRuneInString "a" = (97, 1%nat) /\
  DecodeRuneInString (String "195" (String "169" "")) = (233, 2%nat) /\
  DecodeRuneInString (String "169" "") = (RuneError, 1%nat) /\
  DecodeRuneInString (String "226" (String "130" "")) = (RuneError, 1%nat) /\
  DecodeRuneInString "" = (RuneError, 0%nat).
Proof.
  repeat split; vm_compute; reflexivity.
Qed.

(** Leftmost-first matching: the first match is the leftmost one, a
    repetition takes as much as the rest of the pattern allows, and the
    successive matches do not overlap. *)
Example Regexp_sample :
  Regexp.FindStringSubmatch (regExp speedMatcher) "1.5 12.34kB/s 9.99MB/s"
    = Some ["12.34kB/s"; "12.34kB/s"] /\
  Regexp.FindAllString (regExp progressMatcher) "5% 17%x" (-1)
    = ["5%"; "17%"] /\
  Regexp.FindAllStringSubmatch (regExp timeRemainingMatcher) "0:23:54 1:02:03" 1
    = [["0:23:54"; "23:"]] /\
  Regexp.FindAllString (Regexp.Star Regexp.digit) "a12b" (-1) = [""; "12"; ""] /\
  Regexp.FindStringSubmatch (regExp totalMatcher) "x 1.5G" = None.
Proof.
  repeat split; vm_compute; reflexivity.
Qed.

Example getTaskSpeed_sample :
  getTaskSpeed [] = "" /\
  getTaskSpeed [["a"]] = "" /\
  getTaskSpeed [["a"; "b"]; ["c"; "d"]] = "a".
Proof.
  repeat split; reflexivity.
Qed.

(** ** Facts about [IndexAny] *)

Lemma IndexAny_range (data chars : list ascii) :
  -1 <= IndexAny data chars < len data \/ (data = [] /\ IndexAny data chars = -1).
Proof.
  unfold len. induction data as [|c rest IH]; simpl.
  - right; split; reflexivity.
  - left. destruct (inCutset chars c).
    + lia.
    + destruct (IndexAny rest chars <? 0) eqn:E.
      * lia.
      * apply Z.ltb_ge in E.
        destruct IH as [IH | [-> IH]]; simpl in *; lia.
Qed.

Lemma IndexAny_lt_len (data chars : list ascii) :
  IndexAny data chars < len data \/ data = [].
Proof.
  destruct (IndexAny_range data chars) as [H | [H _]]; [left; lia | right; exact H].
Qed.

Lemma IndexAny_ge_m1 (data chars : list ascii) : -1 <= IndexAny data chars.
Proof.
  destruct (IndexAny_range data chars) as [H | [_ H]]; lia.
Qed.

(** Before the index that [IndexAny] returns no byte is in [chars]. *)
Lemma IndexAny_prefix_clean (chars data : list ascii) :
  0 <= IndexAny data chars ->
  forallb (fun c => negb (inCutset chars c))
          (firstn (Z.to_nat (IndexAny data chars)) data) = true.
Proof.
  induction data as [|c rest IH]; simpl.
  - intros _. reflexivity.
  - destruct (inCutset chars c) eqn:Ec.
    + intros _. reflexivity.
    + destruct (IndexAny rest chars <? 0) eqn:E.
      * lia.
      * apply Z.ltb_ge in E. intros _.
        replace (Z.to_nat (IndexAny rest chars + 1))
          with (S (Z.to_nat (IndexAny rest chars))) by lia.
        simpl. rewrite Ec. simpl. apply IH. exact E.
Qed.

(** When [IndexAny] finds nothing, no byte of [data] is in [chars]. *)
Lemma IndexAny_none_clean (chars data : list ascii) :
  IndexAny data chars < 0 ->
  forallb (fun c => negb (inCutset chars c)) data = true.
Proof.
  induction data as [|c rest IH]; simpl.
  - reflexivity.
  - destruct (inCutset chars c) eqn:Ec.
    + lia.
    + destruct (IndexAny rest chars <? 0) eqn:E.
      * intros _. simpl. apply IH. apply Z.ltb_lt. exact E.
      * apply Z.ltb_ge in E. lia.
Qed.

(** The byte at the index that [IndexAny] returns is in [chars]. *)
Lemma IndexAny_hit (chars data : list ascii) :
  0 <= IndexAny data chars ->
  inCutset chars (index data (IndexAny data chars)) = true.
Proof.
  unfold index.
  induction data as [|c rest IH]; simpl.
  - lia.
  - destruct (inCutset chars c) eqn:Ec.
    + intros _. exact Ec.
    + destruct (IndexAny rest chars <? 0) eqn:E.
      * lia.
      * apply Z.ltb_ge in E. intros _.
        replace (Z.to_nat (IndexAny rest chars + 1))
          with (S (Z.to_nat (IndexAny rest chars))) by lia.
        apply IH. exact E.
Qed.

Lemma slice_from_0 (data : list ascii) (i : Z) :
  slice data 0 i = firstn (Z.to_nat i) data.
Proof.
  unfold slice. rewrite Z.sub_0_r. reflexivity.
Qed.

(** What [scanLines] returns: no error, an advance within the buffer, a
    token without terminator. *)
Lemma scanLines_result (data : list ascii) (atEOF : bool) :
  let '(advance, token, err) := scanLines data atEOF in
  err = None /\
  0 <= advance <= len data /\
  (forall t, token = Some t -> forallb (fun c => negb (isTerminator c)) t = true).
Proof.
  unfold scanLines.
  destruct (atEOF && (len data =? 0)) eqn:E0.
  { repeat split; try (unfold len; lia). intros t Ht; discriminate. }
  pose proof (IndexAny_lt_len data [CR; LF]) as Hlt.
  destruct (0 <=? IndexAny data [CR; LF]) eqn:Ei.
  - apply Z.leb_le in Ei.
    assert (Hi : IndexAny data [CR; LF] < len data).
    { destruct Hlt as [H | ->]; [exact H | simpl in Ei; lia]. }
    pose proof (IndexAny_prefix_clean [CR; LF] data Ei) as Hclean.
    destruct (Ascii.eqb (index data (IndexAny data [CR; LF])) LF).
    + repeat split; try lia.
      intros t Ht. injection Ht as <-. rewrite slice_from_0. exact Hclean.
    + destruct ((IndexAny data [CR; LF] + 1 <? len data) &&
                Ascii.eqb (index data (IndexAny data [CR; LF] + 1)) LF) eqn:E2.
      * apply andb_true_iff in E2. destruct E2 as [E2 _]. apply Z.ltb_lt in E2.
        repeat split; try lia.
        intros t Ht. injection Ht as <-. rewrite slice_from_0. exact Hclean.
      * repeat split; try lia.
        intros t Ht. injection Ht as <-. rewrite slice_from_0. exact Hclean.
  - apply Z.leb_gt in Ei.
    destruct atEOF.
    + repeat split; try (unfold len; lia).
      intros t Ht. injection Ht as <-.
      apply IndexAny_none_clean. exact Ei.
    + repeat split; try (unfold len; lia). intros t Ht; discriminate.
Qed.

(** C10. For every buffer and every value of the end-of-stream flag,
    [scanLines] returns a nil error, an advance between 0 and the length of
    the buffer, and a token (when it returns one) in which neither a carriage
    return nor a line feed occurs: it never fails and never consumes more
    than the buffer holds. *)
Theorem scanLines_safe (data : list ascii) (atEOF : bool) :
  let '(advance, token, err) := scanLines data atEOF in
  err = None /\
  0 <= advance <= len data /\
  (forall t, token = Some t -> forallb (fun c => negb (isTerminator c)) t = true).
Proof.
  exact (scanLines_result data atEOF).
Qed.

(** ** Facts about the matching of patterns *)

Module RegexpFacts.
Import Regexp.

Lemma orElse_Some {A : Type} (a b : option A) (x : A) :
  orElse a b = Some x -> a = Some x \/ b = Some x.
Proof.
  destruct a; simpl; intros H; [left | right]; exact H.
Qed.

Section Invariant.

Variables (P Q : Caps -> Prop).

Lemma oneRune_ok (p : rune -> bool) : matcherOk P Q (oneRune p).
Proof.
  intros k Hk pos s c c' Hc. unfold oneRune.
  destruct (DecodeRuneInString s) as [r w].
  destruct w; [discriminate|].
  destruct (p r); [|discriminate].
  apply Hk. exact Hc.
Qed.

Lemma star_ok (step : Matcher) :
  matcherOk P Q step -> forall fuel, matcherOk P Q (star step fuel).
Proof.
  intros Hstep fuel. induction fuel as [|fuel IH]; intros k Hk pos s c c' Hc; simpl.
  - apply Hk. exact Hc.
  - intros H. apply orElse_Some in H. destruct H as [H | H].
    + revert H. apply Hstep; [|exact Hc].
      intros pos' s' c0 c1 Hc0.
      destruct (pos' =? pos)%nat; [discriminate|].
      apply IH; assumption.
    + revert H. apply Hk. exact Hc.
Qed.

Lemma times_ok (step : Matcher) :
  matcherOk P Q step -> forall n, matcherOk P Q (times step n).
Proof.
  intros Hstep n. induction n as [|n IH]; intros k Hk pos s c c' Hc; simpl.
  - apply Hk. exact Hc.
  - apply Hstep; [|exact Hc].
    intros pos' s' c0 c1 Hc0. apply IH; assumption.
Qed.

(** Matching a pattern keeps [P] when setting any of its groups does. *)
Lemma exec_ok (r : Regexp) :
  (forall idx v c, (idx <= NumSubexp r)%nat -> P c -> P (setCap idx v c)) ->
  matcherOk P Q (exec r).
Proof.
  induction r as [ | a | ranges | | | idx r IH | r IH | r IH | r IH | n r IH
                   | r1 IH1 r2 IH2 | r1 IH1 r2 IH2 ];
    intros Hset k Hk pos s c c' Hc; simpl in *.
  - apply Hk. exact Hc.
  - apply oneRune_ok; assumption.
  - apply oneRune_ok; assumption.
  - apply oneRune_ok; assumption.
  - destruct (pos =? 0)%nat; [|discriminate]. apply Hk. exact Hc.
  - apply IH; [| |exact Hc].
    + intros i v c0 Hi. apply Hset. lia.
    + intros pos' s' c0 c1 Hc0. apply Hk. apply Hset; [lia | exact Hc0].
  - apply star_ok; [|exact Hk|exact Hc]. apply IH. exact Hset.
  - apply IH; [exact Hset| |exact Hc].
    intros pos' s' c0 c1 Hc0.
    apply star_ok; [|exact Hk|exact Hc0]. apply IH. exact Hset.
  - intros H. apply orElse_Some in H. destruct H as [H | H]; revert H.
    + apply IH; assumption.
    + apply Hk. exact Hc.
  - apply times_ok; [|exact Hk|exact Hc]. apply IH. exact Hset.
  - apply IH1; [| |exact Hc].
    + intros i v c0 Hi. apply Hset. lia.
    + intros pos' s' c0 c1 Hc0. apply IH2; [|exact Hk|exact Hc0].
      intros i v c2 Hi. apply Hset. lia.
  - intros H. apply orElse_Some in H. destruct H as [H | H]; revert H.
    + apply IH1; [|exact Hk|exact Hc]. intros i v c0 Hi. apply Hset. lia.
    + apply IH2; [|exact Hk|exact Hc]. intros i v c0 Hi. apply Hset. lia.
Qed.

End Invariant.

Lemma setCap_length (i : nat) (v : nat * nat) (c : Caps) :
  (i < List.length c)%nat -> List.length (setCap i v c) = List.length c.
Proof.
  revert c. induction i as [|i IH]; intros [|x c] H; simpl in *; try lia.
  rewrite IH; lia.
Qed.

Lemma setCap_0 (v : nat * nat) (c : Caps) : nth 0 (setCap 0 v c) None = Some v.
Proof.
  destruct c; reflexivity.
Qed.

(** A match has one entry per group, and its entry 0 starts where the match
    was tried. *)
Lemma matchAt_shape (r : Regexp) (pos : nat) (s : string) (c : Caps) :
  matchAt r pos s = Some c ->
  List.length c = S (NumSubexp r) /\ exists hi, nth 0 c None = Some (pos, hi).
Proof.
  unfold matchAt. intros H. split.
  - revert H.
    apply (exec_ok (fun c => List.length c = S (NumSubexp r))
                (fun c => List.length c = S (NumSubexp r))).
    + intros idx v c0 Hi Hc0. cbv beta in *. rewrite setCap_length; lia.
    + intros pos' s' c0 c1 Hc0 H1. injection H1 as <-.
      destruct c0; simpl in *; lia.
    + apply repeat_length.
  - revert H.
    apply (exec_ok (fun _ => True)
                (fun c => exists hi, nth 0 c None = Some (pos, hi))).
    + intros; exact I.
    + intros pos' s' c0 c1 _ H1. injection H1 as <-.
      exists pos'. destruct c0; reflexivity.
    + exact I.
Qed.

Lemma search_shape (r : Regexp) (fuel pos : nat) (s : string) (c : Caps) :
  search r fuel pos s = Some c ->
  List.length c = S (NumSubexp r) /\
  exists lo hi, nth 0 c None = Some (lo, hi).
Proof.
  revert pos s. induction fuel as [|fuel IH]; intros pos s; simpl.
  - destruct (matchAt r pos s) eqn:E; [|discriminate].
    intros H. injection H as <-.
    destruct (matchAt_shape _ _ _ _ E) as [Hl [hi Hhi]].
    split; [exact Hl | exists pos, hi; exact Hhi].
  - destruct (matchAt r pos s) eqn:E.
    + intros H. injection H as <-.
      destruct (matchAt_shape _ _ _ _ E) as [Hl [hi Hhi]].
      split; [exact Hl | exists pos, hi; exact Hhi].
    + destruct (DecodeRuneInString s) as [rn w].
      destruct w; [discriminate|]. apply IH.
Qed.

Lemma doExecute_shape (r : Regexp) (s : string) (pos : nat) (c : Caps) :
  doExecute r s pos = Some c ->
  List.length c = S (NumSubexp r) /\
  exists lo hi, nth 0 c None = Some (lo, hi).
Proof.
  apply search_shape.
Qed.

(** [FindStringSubmatch] returns a match exactly when [MatchString] holds,
    with one string for the whole match and one for each group. *)
Lemma FindStringSubmatch_shape (r : Regexp) (s : string) :
  MatchString r s = true ->
  exists whole groups,
    FindStringSubmatch r s = Some (whole :: groups) /\
    List.length groups = NumSubexp r.
Proof.
  unfold MatchString, FindStringSubmatch.
  destruct (doExecute r s 0) as [c|] eqn:E; [|discriminate].
  intros _. destruct (doExecute_shape _ _ _ _ E) as [Hl _].
  destruct c as [|g c]; [discriminate|].
  exists (nth 0 (submatches s (g :: c)) ""), (submatches s c).
  split; [reflexivity|].
  unfold submatches. rewrite length_map. simpl in Hl. lia.
Qed.

Lemma FindStringSubmatch_nil (r : Regexp) (s : string) :
  MatchString r s = false -> FindStringSubmatch r s = None.
Proof.
  unfold MatchString, FindStringSubmatch.
  destruct (doExecute r s 0); [discriminate | reflexivity].
Qed.

(** Where the pattern matches, [FindAllString(s, -1)] is not empty. *)
Lemma FindAllString_nonempty (r : Regexp) (s : string) :
  MatchString r s = true -> FindAllString r s (-1) <> [].
Proof.
  unfold MatchString, FindAllString, matchLimit.
  destruct (doExecute r s 0) as [c|] eqn:E; [|discriminate].
  intros _. destruct (doExecute_shape _ _ _ _ E) as [_ [lo [hi H0]]].
  replace (String.length s + 2)%nat with (S (S (String.length s))) by lia.
  cbn [allMatches Z.ltb Z.compare Nat.ltb Nat.leb andb].
  rewrite E, H0.
  destruct (hi =? 0)%nat.
  - destruct (DecodeRuneInString (dropBytes 0 s)) as [rn w]. discriminate.
  - discriminate.
Qed.

End RegexpFacts.

(** The index 0 of [All(logStr)] is in range where [processStdout] uses it. *)
Lemma All_nonempty (mt : matcher) (logStr : string) :
  Match mt logStr = true -> All mt logStr <> [].
Proof.
  apply RegexpFacts.FindAllString_nonempty.
Qed.

(** ** The processors return *)

Lemma scanLines_token_advance (data : list ascii) (atEOF : bool)
    (advance : Z) (tok : list ascii) (err : option error) :
  scanLines data atEOF = (advance, Some tok, err) -> 1 <= advance <= len data.
Proof.
  intros H. pose proof (scanLines_result data atEOF) as S.
  rewrite H in S. destruct S as [_ [Hr _]].
  split; [|lia].
  revert H. unfold scanLines.
  destruct (atEOF && (len data =? 0)) eqn:E0; [discriminate|].
  pose proof (IndexAny_ge_m1 data [CR; LF]) as Hm.
  destruct (0 <=? IndexAny data [CR; LF]) eqn:Ei.
  - apply Z.leb_le in Ei.
    destruct (Ascii.eqb (index data (IndexAny data [CR; LF])) LF).
    + intros H; injection H as <- _ _. lia.
    + destruct ((IndexAny data [CR; LF] + 1 <? len data) &&
                Ascii.eqb (index data (IndexAny data [CR; LF] + 1)) LF);
        intros H; injection H as <- _ _; lia.
  - destruct atEOF; [|discriminate].
    simpl in E0. apply Z.eqb_neq in E0.
    intros H; injection H as <- _ _. unfold len in *. lia.
Qed.

Lemma trySplit_Token (buf : list ascii) (atEOF : bool) (tok rest : list ascii) :
  trySplit scanLines buf atEOF = Token tok rest ->
  (List.length rest < List.length buf)%nat.
Proof.
  unfold trySplit.
  destruct ((0 <? len buf) || atEOF); [|discriminate].
  destruct (scanLines buf atEOF) as [[advance token] err] eqn:E.
  destruct err; [discriminate|].
  destruct ((advance <? 0) || (len buf <? advance)); [discriminate|].
  destruct token as [t|]; [|discriminate].
  intros H. injection H as _ <-.
  apply scanLines_token_advance in E.
  rewrite length_skipn. unfold len in E. lia.
Qed.

Lemma trySplit_More (buf : list ascii) (atEOF : bool) (rest : list ascii) :
  trySplit scanLines buf atEOF = More rest ->
  (List.length rest <= List.length buf)%nat.
Proof.
  unfold trySplit.
  destruct ((0 <? len buf) || atEOF); [|intros H; injection H as <-; lia].
  destruct (scanLines buf atEOF) as [[advance token] err].
  destruct err; [discriminate|].
  destruct ((advance <? 0) || (len buf <? advance)); [discriminate|].
  destruct token as [t|]; [discriminate|].
  intros H. injection H as <-. rewrite length_skipn. lia.
Qed.

(** *** The reads *)

Lemma streamBytes_cons (chunk : list ascii) (r : Stream) :
  streamBytes (chunk :: r) = chunk ++ streamBytes r.
Proof.
  reflexivity.
Qed.

(** A read takes its bytes from the beginning of the stream, as many as
    there is room for at most, and one at least where there is room and the
    first piece is not empty. *)
Lemma Read_spec (room : Z) (r : Stream) (data : list ascii)
    (e : option error) (r' : Stream) :
  Read room r = (data, e, r') ->
  streamBytes r = data ++ streamBytes r' /\
  (0 <= room -> len data <= room) /\
  (noEmptyRead r -> noEmptyRead r') /\
  (e = None -> 0 < room -> noEmptyRead r -> data <> []) /\
  (e <> None -> data = [] /\ r = []).
Proof.
  unfold Read. destruct r as [|chunk r0].
  - intros H. injection H as <- <- <-.
    repeat split; try reflexivity; try discriminate; try (unfold len; simpl; lia); auto.
  - intros H. injection H as <- <- <-.
    set (n := Z.to_nat (Z.min room (len chunk))).
    assert (Hn : (n <= List.length chunk)%nat) by (unfold n, len; lia).
    split; [|split; [|split; [|split]]].
    + rewrite streamBytes_cons.
      rewrite <- (firstn_skipn n chunk) at 1. rewrite <- app_assoc. f_equal.
      destruct (skipn n chunk); reflexivity.
    + intros Hr. unfold len. rewrite length_firstn. unfold n, len. lia.
    + unfold noEmptyRead. cbn [forallb]. intros H.
      apply andb_true_iff in H. destruct H as [_ H].
      destruct (skipn n chunk); [exact H|]. cbn [forallb]. exact H.
    + intros _ Hr H. unfold noEmptyRead in H. cbn [forallb] in H.
      apply andb_true_iff in H. destruct H as [H _].
      destruct chunk as [|c chunk]; [discriminate|].
      assert (n <> 0)%nat by (unfold n, len; cbn [List.length]; lia).
      destruct n; [congruence|]. discriminate.
    + intros H. contradiction H. reflexivity.
Qed.

Lemma readLoop_spec (room : Z) (r : Stream) (loop : nat) (data : list ascii)
    (e : option error) (r' : Stream) :
  readLoop room r loop = (data, e, r') ->
  streamBytes r = data ++ streamBytes r' /\
  (0 <= room -> len data <= room) /\
  (noEmptyRead r -> noEmptyRead r') /\
  (e = None -> 0 < room -> data <> []) /\
  (e <> None -> data = []) /\
  (noEmptyRead r -> e <> None -> r = []).
Proof.
  revert loop. induction r as [|chunk r0 IH]; intros loop.
  - simpl. intros H. injection H as <- <- <-.
    repeat split; try reflexivity; try discriminate; try (unfold len; simpl; lia); auto.
  - destruct chunk as [|c chunk].
    + cbn [readLoop].
      destruct (maxConsecutiveEmptyReads <? S loop)%nat.
      * intros H. injection H as <- <- <-.
        repeat split; try reflexivity; try discriminate;
          try (unfold len; simpl; lia); auto;
          unfold noEmptyRead; cbn [forallb]; discriminate.
      * intros H. apply IH in H.
        destruct H as [H1 [H2 [H3 [H4 [H5 H6]]]]].
        repeat split; auto; unfold noEmptyRead; cbn [forallb]; discriminate.
    + cbn [readLoop]. intros H.
      pose proof (Read_spec room ((c :: chunk) :: r0) data e r' H)
        as [H1 [H2 [H3 [H4 H5]]]].
      repeat split; auto.
      * intros He Hr. unfold Read in H. injection H as <- _ _.
        assert (Z.to_nat (Z.min room (len (c :: chunk))) <> 0)%nat
          by (unfold len; cbn [List.length]; lia).
        destruct (Z.to_nat (Z.min room (len (c :: chunk)))); [congruence|].
        discriminate.
      * intros He. apply H5 in He. apply He.
      * intros _ He. apply H5 in He. apply He.
Qed.

(** *** The buffer *)

Lemma makeRoom_Some (start cap used start' cap' : Z) :
  0 <= start -> 0 <= used -> start + used <= cap ->
  makeRoom start cap used = Some (start', cap') ->
  0 <= start' /\ start' + used < cap' /\
  (cap <= maxScanTokenSize -> cap' <= maxScanTokenSize).
Proof.
  intros Hs Hu Hc. unfold makeRoom, maxScanTokenSize, startBufSize.
  destruct ((0 <? start) && ((start + used =? cap) || (cap / 2 <? start))) eqn:E.
  - destruct (0 + used =? cap) eqn:E1.
    + apply Z.eqb_eq in E1. apply andb_true_iff in E. destruct E as [E _].
      apply Z.ltb_lt in E. lia.
    + apply Z.eqb_neq in E1. intros H. injection H as <- <-. lia.
  - destruct (start + used =? cap) eqn:E1.
    + apply Z.eqb_eq in E1.
      destruct (64 * 1024 <=? cap) eqn:E2; [discriminate|].
      apply Z.leb_gt in E2.
      intros H. injection H as <- <-.
      destruct (cap * 2 =? 0) eqn:E3;
        [apply Z.eqb_eq in E3 | apply Z.eqb_neq in E3]; lia.
    + apply Z.eqb_neq in E1. intros H. injection H as <- <-. lia.
Qed.

Lemma makeRoom_None (start cap used : Z) :
  0 <= start -> start + used <= cap ->
  makeRoom start cap used = None -> maxScanTokenSize <= used.
Proof.
  intros Hs Hc. unfold makeRoom.
  destruct ((0 <? start) && ((start + used =? cap) || (cap / 2 <? start))) eqn:E.
  - destruct (0 + used =? cap) eqn:E1; [|discriminate].
    apply Z.eqb_eq in E1. apply andb_true_iff in E. destruct E as [E _].
    apply Z.ltb_lt in E. lia.
  - destruct (start + used =? cap) eqn:E1; [|discriminate].
    apply Z.eqb_eq in E1.
    destruct (maxScanTokenSize <=? cap) eqn:E2; [|discriminate].
    apply Z.leb_le in E2. intros _.
    destruct (0 <? start) eqn:E3.
    + simpl in E. discriminate.
    + apply Z.ltb_ge in E3. lia.
Qed.

(** *** The scanner *)

Lemma scanEOF_Token (e : error) (r : Stream) (buf : list ascii)
    (start cap : Z) (tok : list ascii) (s' : Scanner) :
  fits start cap buf ->
  scanEOF scanLines e r buf start cap = (Some tok, s') ->
  wfScanner s' /\ sc_err s' <> None /\
  (pending s' < List.length buf + List.length (streamBytes r))%nat.
Proof.
  unfold scanEOF. intros [Hs Hc].
  destruct (trySplit scanLines buf true) as [t rest | e' | rest] eqn:E;
    try discriminate.
  intros H. injection H as _ <-.
  apply trySplit_Token in E.
  unfold wfScanner, fits, pending, len in *. simpl.
  repeat split; try lia. discriminate.
Qed.

Lemma scanEOF_err (e : error) (r : Stream) (buf : list ascii)
    (start cap : Z) (tok : option (list ascii)) (s' : Scanner) :
  scanEOF scanLines e r buf start cap = (tok, s') -> sc_err s' <> None.
Proof.
  unfold scanEOF.
  destruct (trySplit scanLines buf true) as [t rest | e' | rest];
    intros H; injection H as _ <-; simpl; try discriminate.
  destruct e; discriminate.
Qed.

(** The loop of [Scan] ends within the bound, and a token consumes a byte
    at least. *)
Lemma scanLoop_returns (fuel : nat) (r : Stream) (buf : list ascii)
    (start cap : Z) :
  fits start cap buf ->
  (List.length (streamBytes r) <= fuel)%nat ->
  exists tok s',
    scanLoop scanLines fuel r buf start cap = Some (tok, s') /\
    (tok <> None ->
     wfScanner s' /\
     (pending s' < List.length buf + List.length (streamBytes r))%nat).
Proof.
  revert r buf start cap.
  induction fuel as [|fuel IH]; intros r buf start cap [Hs Hc] Hf;
    cbn [scanLoop];
    (destruct (trySplit scanLines buf false) as [t rest | e | rest] eqn:E;
     [ eexists; eexists; split; [reflexivity|]; intros _;
       apply trySplit_Token in E;
       unfold wfScanner, fits, pending, len in *; simpl; lia
     | eexists; eexists; split; [reflexivity|]; intros H; congruence
     | ]);
    apply trySplit_More in E;
    (destruct (makeRoom (start + (len buf - len rest)) cap (len rest))
       as [[start' cap']|] eqn:Em;
     [| eexists; eexists; split; [reflexivity|]; intros H; congruence ]);
    (apply makeRoom_Some in Em; [| unfold len in *; lia ..]);
    destruct Em as [Hs' [Hroom _]];
    destruct (readLoop (cap' - (start' + len rest)) r 0)
      as [[data [e|]] r'] eqn:Er;
    apply readLoop_spec in Er;
    destruct Er as [Hb [Hlen [_ [Hne [Hnil _]]]]].
  - (* the reads end *)
    rewrite (Hnil ltac:(discriminate)), app_nil_r in *.
    destruct (scanEOF scanLines e r' rest start' cap') as [tok s'] eqn:Ee.
    exists tok, s'. split; [reflexivity|].
    intros Ht. destruct tok as [tok|]; [|congruence].
    apply scanEOF_Token in Ee; [|unfold fits; lia].
    destruct Ee as [Hw [_ Hp]]. split; [exact Hw|].
    rewrite Hb. simpl. lia.
  - (* no fuel: the stream is empty and a read cannot return a byte *)
    exfalso. specialize (Hne eq_refl ltac:(lia)).
    destruct data; [congruence|].
    rewrite Hb in Hf. simpl in Hf. lia.
  - rewrite (Hnil ltac:(discriminate)), app_nil_r in *.
    destruct (scanEOF scanLines e r' rest start' cap') as [tok s'] eqn:Ee.
    exists tok, s'. split; [reflexivity|].
    intros Ht. destruct tok as [tok|]; [|congruence].
    apply scanEOF_Token in Ee; [|unfold fits; lia].
    destruct Ee as [Hw [_ Hp]]. split; [exact Hw|].
    rewrite Hb. simpl. lia.
  - specialize (Hne eq_refl ltac:(lia)).
    assert (Hd : (0 < List.length data)%nat)
      by (destruct data; [congruence | simpl; lia]).
    specialize (Hlen ltac:(lia)).
    destruct (IH r' (rest ++ data) start' cap') as [tok [s' [H1 H2]]].
    + unfold fits, len in *. rewrite length_app. lia.
    + rewrite Hb, length_app in Hf. lia.
    + exists tok, s'. split; [exact H1|].
      intros Ht. destruct (H2 Ht) as [Hw Hp]. split; [exact Hw|].
      rewrite Hb. rewrite !length_app in *. lia.
Qed.

(** [Scan] returns, and a call that returns a token has consumed a byte at
    least. *)
Lemma Scan_returns (s : Scanner) :
  wfScanner s ->
  exists tok s',
    Scan scanLines s = Some (tok, s') /\
    (tok <> None -> wfScanner s' /\ (pending s' < pending s)%nat).
Proof.
  intros Hw. unfold Scan. destruct (sc_err s) as [e|].
  - destruct (scanEOF scanLines e (sc_r s) (sc_buf s) (sc_start s) (sc_cap s))
      as [tok s'] eqn:Ee.
    exists tok, s'. split; [reflexivity|].
    intros Ht. destruct tok as [tok|]; [|congruence].
    apply scanEOF_Token in Ee; [|exact Hw].
    destruct Ee as [Hw' [_ Hp]]. split; [exact Hw' | exact Hp].
  - apply scanLoop_returns; [exact Hw | lia].
Qed.

Lemma wfScanner_NewScanner (r : Stream) : wfScanner (NewScanner r).
Proof.
  unfold wfScanner, fits, NewScanner, len. simpl. lia.
Qed.

Lemma stdoutLoop_returns (fuel : nat) (s : Scanner) (task : Task) :
  wfScanner s -> (pending s < fuel)%nat ->
  exists task', stdoutLoop fuel s task = Some task'.
Proof.
  revert s task. induction fuel as [|fuel IH]; intros s task Hw Hf; [lia|].
  cbn [stdoutLoop].
  destruct (Scan_returns s Hw) as [tok [s' [E H]]]. rewrite E.
  destruct tok as [tok|].
  - destruct (H ltac:(discriminate)) as [Hw' Hp]. apply IH; [exact Hw' | lia].
  - exists task. reflexivity.
Qed.

(** [processStdout] reaches the end of every stream. *)
Lemma processStdout_returns (task : Task) (stdout : Stream) :
  exists task', processStdout task stdout = Some task'.
Proof.
  apply stdoutLoop_returns; [apply wfScanner_NewScanner|].
  unfold pending. simpl. lia.
Qed.

Lemma scanTokens_returns (fuel : nat) (s : Scanner) :
  wfScanner s -> (pending s < fuel)%nat ->
  exists toks, scanTokens scanLines fuel s = Some toks.
Proof.
  revert s. induction fuel as [|fuel IH]; intros s Hw Hf; [lia|].
  cbn [scanTokens].
  destruct (Scan_returns s Hw) as [tok [s' [E H]]]. rewrite E.
  destruct tok as [tok|].
  - destruct (H ltac:(discriminate)) as [Hw' Hp].
    destruct (IH s' Hw') as [toks Ht]; [lia|].
    rewrite Ht. exists (tok :: toks). reflexivity.
  - exists []. reflexivity.
Qed.

Lemma frameLines_returns (stdout : Stream) :
  exists toks, frameLines stdout = Some toks.
Proof.
  apply scanTokens_returns; [apply wfScanner_NewScanner|].
  unfold pending. simpl. lia.
Qed.

Lemma stdoutLoop_scanTokens (fuel : nat) (s : Scanner) (task : Task) :
  stdoutLoop fuel s task =
  option_map (stdoutLines task) (scanTokens scanLines fuel s).
Proof.
  revert s task. induction fuel as [|fuel IH]; intros s task; simpl.
  - reflexivity.
  - destruct (Scan scanLines s) as [[[tok|] s']|].
    + rewrite IH. destruct (scanTokens scanLines fuel s'); reflexivity.
    + reflexivity.
    + reflexivity.
Qed.

(** [processStdout] applies the body of its loop to the lines of the
    scanner, in order. *)
Lemma processStdout_frameLines (task : Task) (stdout : Stream) :
  processStdout task stdout = option_map (stdoutLines task) (frameLines stdout).
Proof.
  apply stdoutLoop_scanTokens.
Qed.

(** *** The reader *)

Lemma fillLoop_spec (room : Z) (r : Stream) (i : nat) (data : list ascii)
    (e : option error) (r' : Stream) :
  fillLoop room r i = (data, e, r') ->
  streamBytes r = data ++ streamBytes r' /\
  (0 <= room -> len data <= room) /\
  (noEmptyRead r -> noEmptyRead r') /\
  (e = None -> 0 < room -> data <> []) /\
  (e <> None -> data = []) /\
  (noEmptyRead r -> (0 < i)%nat -> e <> None -> r = []).
Proof.
  revert r. induction i as [|i IH]; intros r.
  - cbn [fillLoop]. intros H. injection H as <- <- <-.
    repeat split; try reflexivity; try discriminate;
      try (unfold len; simpl; lia); auto.
  - destruct r as [|chunk r0].
    + simpl. intros H. injection H as <- <- <-.
      repeat split; try reflexivity; try discriminate;
        try (unfold len; simpl; lia); auto.
    + destruct chunk as [|c chunk].
      * cbn [fillLoop]. intros H. apply IH in H.
        destruct H as [H1 [H2 [H3 [H4 [H5 H6]]]]].
        repeat split; auto; unfold noEmptyRead; cbn [forallb]; discriminate.
      * cbn [fillLoop]. intros H.
        pose proof (Read_spec room ((c :: chunk) :: r0) data e r' H)
          as [H1 [H2 [H3 [H4 H5]]]].
        repeat split; auto.
        -- intros He Hr. unfold Read in H. injection H as <- _ _.
           assert (Z.to_nat (Z.min room (len (c :: chunk))) <> 0)%nat
             by (unfold len; cbn [List.length]; lia).
           destruct (Z.to_nat (Z.min room (len (c :: chunk)))); [congruence|].
           discriminate.
        -- intros He. apply H5 in He. apply He.
        -- intros _ _ He. apply H5 in He. apply He.
Qed.

(** [ReadString] returns within the bound, and a call without error has
    consumed a byte at least. *)
Lemma readString_returns (fuel : nat) (r : Stream) (buf acc : list ascii) :
  (List.length (streamBytes r) <= fuel)%nat ->
  exists str e rd',
    readString LF fuel r buf acc = Some (str, e, rd') /\
    (e = None ->
     (pendingRead rd' < List.length buf + List.length (streamBytes r))%nat).
Proof.
  revert r buf acc.
  induction fuel as [|fuel IH]; intros r buf acc Hf; cbn [readString];
    pose proof (IndexAny_lt_len buf [LF]) as Hlt;
    (destruct (0 <=? IndexAny buf [LF]) eqn:Ei;
     [ apply Z.leb_le in Ei;
       eexists; eexists; eexists; split; [reflexivity|]; intros _;
       unfold pendingRead; simpl; rewrite length_skipn;
       destruct Hlt as [Hlt | Hlt];
       [unfold len in Hlt; lia | rewrite Hlt in Ei; simpl in Ei; lia]
     | ]);
    set (buf' := if defaultBufSize <=? len buf then [] else buf);
    set (acc' := if defaultBufSize <=? len buf then acc ++ buf else acc);
    (assert (Hroom : 0 < defaultBufSize - len buf')
      by (unfold buf'; destruct (defaultBufSize <=? len buf) eqn:Eb;
          [unfold defaultBufSize, len; simpl; lia | apply Z.leb_gt in Eb; lia]));
    (assert (Hb' : (List.length buf' <= List.length buf)%nat)
      by (unfold buf'; destruct (defaultBufSize <=? len buf); simpl; lia));
    destruct (fillLoop (defaultBufSize - len buf') r maxConsecutiveEmptyReads)
      as [[data [e|]] r'] eqn:Er;
    apply fillLoop_spec in Er;
    destruct Er as [Hb [Hlen [_ [Hne _]]]].
  - eexists; eexists; eexists; split; [reflexivity|]. discriminate.
  - exfalso. specialize (Hne eq_refl Hroom).
    destruct data; [congruence|]. rewrite Hb in Hf. simpl in Hf. lia.
  - eexists; eexists; eexists; split; [reflexivity|]. discriminate.
  - specialize (Hne eq_refl Hroom).
    assert (Hd : (0 < List.length data)%nat)
      by (destruct data; [congruence | simpl; lia]).
    destruct (IH r' (buf' ++ data) acc') as [str [e [rd' [H1 H2]]]].
    + rewrite Hb, length_app in Hf. lia.
    + exists str, e, rd'. split; [exact H1|].
      intros He. specialize (H2 He).
      rewrite Hb. rewrite !length_app in *. lia.
Qed.

Lemma stderrLoop_returns (fuel : nat) (rd : Reader) (task : Task) :
  (pendingRead rd < fuel)%nat -> exists task', stderrLoop fuel rd task = Some task'.
Proof.
  revert rd task. induction fuel as [|fuel IH]; intros rd task Hf; [lia|].
  cbn [stderrLoop]. unfold ReadString.
  destruct (readString_returns (S (List.length (streamBytes (rd_r rd))))
              (rd_r rd) (rd_buf rd) []) as [str [e [rd' [E H]]]]; [lia|].
  rewrite E. destruct e as [e|].
  - exists task. reflexivity.
  - apply IH. specialize (H eq_refl). unfold pendingRead in Hf. lia.
Qed.

(** [processStderr] reaches the end of every stream. *)
Lemma processStderr_returns (task : Task) (stderr : Stream) :
  exists task', processStderr task stderr = Some task'.
Proof.
  apply stderrLoop_returns. unfold pendingRead. simpl. lia.
Qed.

(** The state belongs to the stdout processor: the stderr processor leaves
    it, and [Log.Stdout], as they are. *)
Lemma stderrLoop_frame (fuel : nat) (rd : Reader) (task task' : Task) :
  stderrLoop fuel rd task = Some task' ->
  state task' = state task /\ Stdout (log task') = Stdout (log task).
Proof.
  revert rd task. induction fuel as [|fuel IH]; intros rd task; cbn [stderrLoop].
  - discriminate.
  - destruct (ReadString rd LF) as [[[logStr err] rd']|]; [|discriminate].
    destruct err as [e|].
    + intros H. injection H as <-. split; reflexivity.
    + intros H. apply IH in H. exact H.
Qed.

(** [Log.Stdout] after the body of the loop: the line and one line feed are
    appended. *)
Lemma stdoutLine_Stdout (task : Task) (logStr : string) :
  Stdout (Task_Log (stdoutLine task logStr))
  = (Stdout (Task_Log task) ++ logStr ++ nl)%string.
Proof.
  reflexivity.
Qed.
(** ** The line framer on a buffer that holds the whole stream *)

Lemma spanLine_app (data : list ascii) :
  data = fst (spanLine data) ++ snd (spanLine data).
Proof.
  induction data as [|c rest IH]; simpl; [reflexivity|].
  destruct (isTerminator c); [reflexivity|].
  destruct (spanLine rest) as [p q]. simpl in *. rewrite <- IH. reflexivity.
Qed.

Lemma spanLine_clean (data : list ascii) : clean (fst (spanLine data)).
Proof.
  unfold clean. induction data as [|c rest IH]; simpl; [reflexivity|].
  destruct (isTerminator c) eqn:E; [reflexivity|].
  destruct (spanLine rest) as [p q]. simpl in *. rewrite E. exact IH.
Qed.

Lemma spanLine_terminator (data : list ascii) (c : ascii) (q : list ascii) :
  snd (spanLine data) = c :: q -> isTerminator c = true.
Proof.
  induction data as [|d rest IH]; simpl; [discriminate|].
  destruct (isTerminator d) eqn:E.
  - simpl. intros H. injection H as <- _. exact E.
  - destruct (spanLine rest) as [p q']. simpl in *. exact IH.
Qed.

Lemma IndexAny_clean (p : list ascii) :
  clean p -> IndexAny p [CR; LF] = -1.
Proof.
  unfold clean, isTerminator.
  induction p as [|c p IH]; cbn [IndexAny forallb]; [reflexivity|].
  destruct (inCutset [CR; LF] c); cbn [negb andb]; [discriminate|].
  intros H. rewrite (IH H). reflexivity.
Qed.

Lemma IndexAny_app_hit (p : list ascii) (c : ascii) (q : list ascii) :
  clean p -> isTerminator c = true ->
  IndexAny (p ++ c :: q) [CR; LF] = len p.
Proof.
  unfold clean, len, isTerminator. intros Hp Hc.
  induction p as [|d p IH]; cbn [IndexAny forallb app List.length] in *.
  - rewrite Hc. reflexivity.
  - destruct (inCutset [CR; LF] d); cbn [negb andb] in Hp; [discriminate|].
    rewrite (IH Hp).
    destruct (Z.of_nat (List.length p) <? 0) eqn:E; [apply Z.ltb_lt in E|]; lia.
Qed.

Lemma index_app_hit (p : list ascii) (c : ascii) (q : list ascii) :
  index (p ++ c :: q) (len p) = c.
Proof.
  unfold index, len. rewrite Nat2Z.id. apply nth_middle.
Qed.

Lemma index_app_next (p : list ascii) (c c' : ascii) (q : list ascii) :
  index (p ++ c :: c' :: q) (len p + 1) = c'.
Proof.
  unfold index, len.
  replace (Z.to_nat (Z.of_nat (List.length p) + 1))
    with (List.length (p ++ [c])) by (rewrite length_app; simpl; lia).
  replace (p ++ c :: c' :: q) with ((p ++ [c]) ++ c' :: q)
    by (rewrite <- app_assoc; reflexivity).
  apply nth_middle.
Qed.

Lemma slice_app_prefix (p q : list ascii) : slice (p ++ q) 0 (len p) = p.
Proof.
  rewrite slice_from_0. unfold len. rewrite Nat2Z.id.
  rewrite firstn_app, Nat.sub_diag, firstn_all. simpl. apply app_nil_r.
Qed.

Lemma skipn_app_1 (p : list ascii) (c : ascii) (q : list ascii) :
  skipn (Z.to_nat (len p + 1)) (p ++ c :: q) = q.
Proof.
  unfold len.
  replace (Z.to_nat (Z.of_nat (List.length p) + 1))
    with (List.length (p ++ [c])) by (rewrite length_app; simpl; lia).
  replace (p ++ c :: q) with ((p ++ [c]) ++ q)
    by (rewrite <- app_assoc; reflexivity).
  rewrite skipn_app, skipn_all, Nat.sub_diag. reflexivity.
Qed.

Lemma skipn_app_2 (p : list ascii) (c c' : ascii) (q : list ascii) :
  skipn (Z.to_nat (len p + 1 + 1)) (p ++ c :: c' :: q) = q.
Proof.
  unfold len.
  replace (Z.to_nat (Z.of_nat (List.length p) + 1 + 1))
    with (List.length (p ++ [c; c'])) by (rewrite length_app; simpl; lia).
  replace (p ++ c :: c' :: q) with ((p ++ [c; c']) ++ q)
    by (rewrite <- app_assoc; reflexivity).
  rewrite skipn_app, skipn_all, Nat.sub_diag. reflexivity.
Qed.

Lemma isTerminator_cases (c : ascii) :
  isTerminator c = true -> c = CR \/ c = LF.
Proof.
  unfold isTerminator, inCutset. simpl.
  destruct (Ascii.eqb c CR) eqn:E1; [apply Ascii.eqb_eq in E1; auto|].
  destruct (Ascii.eqb c LF) eqn:E2; [apply Ascii.eqb_eq in E2; auto|].
  discriminate.
Qed.

(** [scanLines] where the buffer has a terminator: the token is what
    precedes the first one, and the advance skips that terminator. *)
Lemma scanLines_terminated (p : list ascii) (c : ascii) (q : list ascii)
    (atEOF : bool) :
  clean p -> isTerminator c = true ->
  scanLines (p ++ c :: q) atEOF =
  (len p + 1 + (len q - len (afterTerminator c q)), Some p, None) /\
  skipn (Z.to_nat (len p + 1 + (len q - len (afterTerminator c q))))
        (p ++ c :: q) = afterTerminator c q.
Proof.
  intros Hp Hc. unfold scanLines.
  assert (Hlen : len (p ++ c :: q) = len p + 1 + len q).
  { unfold len. rewrite length_app. simpl. lia. }
  replace (atEOF && (len (p ++ c :: q) =? 0)) with false.
  2:{ symmetry. apply andb_false_iff. right. apply Z.eqb_neq. unfold len in *. lia. }
  rewrite (IndexAny_app_hit p c q Hp Hc).
  replace (0 <=? len p) with true by (symmetry; apply Z.leb_le; unfold len; lia).
  rewrite index_app_hit, slice_app_prefix.
  destruct (isTerminator_cases c Hc) as [-> | ->].
  - (* a carriage return *)
    change (Ascii.eqb CR LF) with false. cbv iota.
    unfold afterTerminator. rewrite Ascii.eqb_refl.
    destruct q as [|c' q'].
    + replace (len p + 1 <? len (p ++ [CR])) with false
        by (symmetry; apply Z.ltb_ge; rewrite Hlen; unfold len; cbn [List.length]; lia).
      simpl andb. cbv iota.
      replace (len p + 1 + (len (@nil ascii) - len (@nil ascii))) with (len p + 1) by lia.
      split; [reflexivity | apply skipn_app_1].
    + replace (len p + 1 <? len (p ++ CR :: c' :: q')) with true
        by (symmetry; apply Z.ltb_lt; rewrite Hlen; unfold len; cbn [List.length]; lia).
      rewrite index_app_next. simpl andb.
      destruct (Ascii.eqb c' LF).
      * replace (len p + 1 + (len (c' :: q') - len q')) with (len p + 1 + 1)
          by (unfold len; cbn [List.length]; lia).
        split; [reflexivity | apply skipn_app_2].
      * replace (len p + 1 + (len (c' :: q') - len (c' :: q'))) with (len p + 1) by lia.
        split; [reflexivity | apply skipn_app_1].
  - (* a line feed *)
    rewrite Ascii.eqb_refl.
    unfold afterTerminator. change (Ascii.eqb LF CR) with false. cbv iota.
    replace (len p + 1 + (len q - len q)) with (len p + 1) by lia.
    split; [reflexivity | apply skipn_app_1].
Qed.

(** [scanLines] where the buffer has no terminator. *)
Lemma scanLines_unterminated (p : list ascii) (atEOF : bool) :
  clean p ->
  scanLines p atEOF =
  if atEOF then
    match p with
    | [] => (0, None, None)
    | _ => (len p, Some p, None)
    end
  else (0, None, None).
Proof.
  intros Hp. unfold scanLines. rewrite (IndexAny_clean p Hp).
  change (0 <=? -1) with false. cbv iota.
  destruct atEOF; simpl andb; [|reflexivity].
  destruct p as [|c p]; reflexivity.
Qed.

(** The lines of the specification, one terminator at a time. *)
Lemma specLines_span (cur data : list ascii) :
  specLines cur data =
  match snd (spanLine data) with
  | [] => match rev cur ++ fst (spanLine data) with
          | [] => []
          | l => [l]
          end
  | c :: q =>
      (rev cur ++ fst (spanLine data)) :: specLines [] (afterTerminator c q)
  end.
Proof.
  revert cur. induction data as [|c rest IH]; intros cur.
  - simpl. rewrite app_nil_r. destruct cur as [|a cur]; [reflexivity|].
    simpl. destruct (rev cur); reflexivity.
  - cbn [specLines spanLine]. unfold isTerminator, inCutset. cbn [existsb].
    destruct (Ascii.eqb c LF) eqn:E2.
    + apply Ascii.eqb_eq in E2. subst c. simpl.
      rewrite app_nil_r. reflexivity.
    + destruct (Ascii.eqb c CR) eqn:E1.
      * apply Ascii.eqb_eq in E1. subst c. simpl.
        rewrite app_nil_r.
        destruct rest as [|c' rest']; [reflexivity|].
        unfold afterTerminator. cbn [Ascii.eqb CR Bool.eqb andb].
        destruct (Ascii.eqb c' LF); reflexivity.
      * cbn [orb]. rewrite IH. destruct (spanLine rest) as [p q].
        cbn [fst snd rev]. rewrite <- app_assoc. reflexivity.
Qed.

Lemma afterTerminator_length (c : ascii) (q : list ascii) :
  (List.length (afterTerminator c q) <= List.length q)%nat.
Proof.
  unfold afterTerminator. destruct (Ascii.eqb c CR); [|lia].
  destruct q as [|c' q']; [simpl; lia|].
  destruct (Ascii.eqb c' LF); simpl; lia.
Qed.

(** On a buffer that holds the whole rest of the stream, [scanLines] yields
    the lines of the specification. *)
Lemma framesAtEOF_specLines (fuel : nat) (data : list ascii) :
  (List.length data < fuel)%nat -> framesAtEOF fuel data = specLines [] data.
Proof.
  revert data. induction fuel as [|fuel IH]; intros data Hf; [lia|].
  rewrite specLines_span. simpl rev. simpl app.
  pose proof (spanLine_app data) as Happ.
  pose proof (spanLine_clean data) as Hclean.
  pose proof (spanLine_terminator data) as Hterm.
  destruct (spanLine data) as [p q]. simpl in *.
  destruct q as [|c q].
  - rewrite app_nil_r in Happ. subst p.
    rewrite (scanLines_unterminated data true Hclean).
    destruct data as [|d data]; [reflexivity|].
    replace (skipn (Z.to_nat (len (d :: data))) (d :: data)) with (@nil ascii).
    2:{ symmetry. apply skipn_all2. unfold len. lia. }
    destruct fuel; [reflexivity|]. reflexivity.
  - assert (Hc : isTerminator c = true) by (apply (Hterm c q); reflexivity).
    destruct (scanLines_terminated p c q true Hclean Hc) as [Hs Hk].
    rewrite Happ, Hs, Hk. f_equal.
    apply IH.
    pose proof (afterTerminator_length c q).
    rewrite Happ in Hf. rewrite length_app in Hf. simpl in Hf. lia.
Qed.

(** ** One call of the split function *)

Lemma trySplit_unterminated_false (p : list ascii) :
  clean p -> trySplit scanLines p false = More p.
Proof.
  intros Hp. unfold trySplit.
  rewrite (scanLines_unterminated p false Hp).
  destruct ((0 <? len p) || false); [|reflexivity].
  replace ((0 <? 0) || (len p <? 0)) with false; [reflexivity|].
  symmetry. apply orb_false_iff. split; apply Z.ltb_ge; unfold len; lia.
Qed.

Lemma trySplit_unterminated_true (p : list ascii) :
  clean p ->
  trySplit scanLines p true =
  match p with
  | [] => More []
  | _ => Token p []
  end.
Proof.
  intros Hp. unfold trySplit.
  rewrite (scanLines_unterminated p true Hp), orb_true_r.
  destruct p as [|d p]; [reflexivity|].
  replace ((len (d :: p) <? 0) || (len (d :: p) <? len (d :: p))) with false.
  2:{ symmetry. apply orb_false_iff. split; apply Z.ltb_ge; unfold len; lia. }
  replace (skipn (Z.to_nat (len (d :: p))) (d :: p)) with (@nil ascii);
    [reflexivity|].
  symmetry. apply skipn_all2. unfold len. lia.
Qed.

Lemma trySplit_terminated (p : list ascii) (c : ascii) (q : list ascii)
    (atEOF : bool) :
  clean p -> isTerminator c = true ->
  trySplit scanLines (p ++ c :: q) atEOF = Token p (afterTerminator c q).
Proof.
  intros Hp Hc. unfold trySplit.
  destruct (scanLines_terminated p c q atEOF Hp Hc) as [Hs Hk].
  pose proof (afterTerminator_length c q) as Hal.
  assert (Hlen : len (p ++ c :: q) = len p + 1 + len q).
  { unfold len. rewrite length_app. cbn [List.length]. lia. }
  rewrite Hs, Hk.
  replace (0 <? len (p ++ c :: q)) with true
    by (symmetry; apply Z.ltb_lt; unfold len in *; lia).
  cbn [orb].
  replace ((len p + 1 + (len q - len (afterTerminator c q)) <? 0)
           || (len (p ++ c :: q)
               <? len p + 1 + (len q - len (afterTerminator c q))))
    with false; [reflexivity|].
  symmetry. apply orb_false_iff.
  split; apply Z.ltb_ge; unfold len in *; lia.
Qed.

Lemma framesAtEOF_terminated (fuel : nat) (p : list ascii) (c : ascii)
    (q : list ascii) :
  clean p -> isTerminator c = true ->
  framesAtEOF (S fuel) (p ++ c :: q) = p :: framesAtEOF fuel (afterTerminator c q).
Proof.
  intros Hp Hc. cbn [framesAtEOF].
  destruct (scanLines_terminated p c q true Hp Hc) as [Hs Hk].
  rewrite Hs, Hk. reflexivity.
Qed.

Lemma framesAtEOF_unterminated (fuel : nat) (p : list ascii) :
  clean p ->
  framesAtEOF (S fuel) p = match p with [] => [] | _ => [p] end.
Proof.
  intros Hp. cbn [framesAtEOF].
  rewrite (scanLines_unterminated p true Hp).
  destruct p as [|d p]; [reflexivity|].
  replace (skipn (Z.to_nat (len (d :: p))) (d :: p)) with (@nil ascii).
  2:{ symmetry. apply skipn_all2. unfold len. lia. }
  destruct fuel; reflexivity.
Qed.
(** ** The stdout processor on one line *)

(** C1. Processing the line [15.17G  10%   92.23MB/s    0:23:54] from the
    zeroed state of a new task makes [State()] return Progress 10,
    DownloadedTotal 15.17G, Speed 92.23MB/s and TimeRemaining 0:23:54 --
    whether the line ends with a line feed, with a carriage return, or with
    the stream. *)
Theorem processStdout_progress_line :
  option_map Task_State
    (processStdout NewTask (oneChunk (bytes progressLine ++ [LF])))
    = Some progressState /\
  option_map Task_State
    (processStdout NewTask (oneChunk (bytes progressLine ++ [CR])))
    = Some progressState /\
  option_map Task_State
    (processStdout NewTask (oneChunk (bytes progressLine)))
    = Some progressState /\
  Task_State (stdoutLine NewTask progressLine) = progressState.
Proof.
  repeat split; vm_compute; reflexivity.
Qed.

(** C8. On a line in which the speed pattern does not match, the stdout
    processor leaves [Speed] at its prior value. *)
Theorem stdoutLine_Speed_kept (task : Task) (logStr : string) :
  Match speedMatcher logStr = false ->
  Speed (Task_State (stdoutLine task logStr)) = Speed (Task_State task).
Proof.
  intros H. unfold stdoutLine, Task_State. rewrite H.
  destruct (Match totalMatcher logStr);
    destruct (Match progressMatcher logStr);
    destruct (Match timeRemainingMatcher logStr); reflexivity.
Qed.

Lemma stdoutLine_Speed_kept_witness :
  Speed (Task_State (stdoutLine (withState progressState) noSpeedLine))
  = "92.23MB/s".
Proof.
  apply (stdoutLine_Speed_kept (withState progressState) noSpeedLine).
  vm_compute. reflexivity.
Defined.

(** [Progress] after one line: it keeps its previous value on a line in
    which the progress pattern does not match; on a line in which it matches,
    [Progress] becomes the integer that [Atoi] returns for the token without
    its percent sign, whether [Atoi] reports an error or not. *)
Lemma stdoutLine_Progress (task : Task) (logStr : string) :
  Progress (Task_State (stdoutLine task logStr)) =
  if Match progressMatcher logStr
  then fst (Atoi (TrimRight (Extract progressMatcher logStr) "%"))
  else Progress (Task_State task).
Proof.
  split_matches logStr; reflexivity.
Qed.

(** C3, at the input on which the code fails: on a line whose percentage
    does not fit an [int] the progress pattern matches and the parse fails
    with a range error; [Progress], which was 42, does not keep its value
    but becomes 9223372036854775807, the integer that [Atoi] returns with
    its error. *)
Theorem stdoutLine_Progress_parse_failure :
  Match progressMatcher hugePercentLine = true /\
  snd (Atoi (TrimRight (Extract progressMatcher hugePercentLine) "%"))
    = Some ErrRange /\
  Progress (Task_State (withState (setProgress 42 progressState))) = 42 /\
  Progress (Task_State
              (stdoutLine (withState (setProgress 42 progressState))
                          hugePercentLine))
    = 9223372036854775807 /\
  Progress (Task_State
              (stdoutLine (withState (setProgress 42 progressState))
                          hugePercentLine))
    <> Progress (Task_State (withState (setProgress 42 progressState))).
Proof.
  repeat split; try (vm_compute; reflexivity).
  vm_compute. discriminate.
Qed.

(** C4, at the input on which the code leaves the range: the progress
    pattern matches [250%], the token parses, and [Progress] becomes 250. *)
Theorem stdoutLine_Progress_above_100 :
  Match progressMatcher bigPercentLine = true /\
  Extract progressMatcher bigPercentLine = "250%" /\
  Atoi (TrimRight (Extract progressMatcher bigPercentLine) "%") = (250, None) /\
  Progress (Task_State (stdoutLine NewTask bigPercentLine)) = 250.
Proof.
  repeat split; vm_compute; reflexivity.
Qed.

(** ** The line framer under the scanner *)

(** C2, at the input on which the code fails: the stream [a\r\nb\n] has two
    lines; read as [a\r] and then [\nb\n], [scanLines] returns the line [a]
    for the first chunk without waiting for the byte after the carriage
    return, and an empty line for the line feed that follows, so that the
    scanner yields three lines.  Read in one chunk the same stream yields
    two. *)
Theorem scanLines_CR_at_end_of_buffer :
  scanLines (bytes "a" ++ [CR]) false = (2, Some (bytes "a"), None) /\
  scanLines ([LF] ++ bytes "b" ++ [LF]) false = (1, Some [], None) /\
  frameLines [bytes "a" ++ [CR]; [LF] ++ bytes "b" ++ [LF]]
    = Some [bytes "a"; []; bytes "b"] /\
  specLines [] (streamBytes [bytes "a" ++ [CR]; [LF] ++ bytes "b" ++ [LF]])
    = [bytes "a"; bytes "b"] /\
  frameLines [bytes "a" ++ [CR; LF] ++ bytes "b" ++ [LF]]
    = Some [bytes "a"; bytes "b"].
Proof.
  repeat split; vm_compute; reflexivity.
Qed.

(** ** The stderr processor *)

(** C6, at the input on which the code fails: on the stream [err1\nerr2] the
    stderr processor appends [err1\n] and one more line feed, and drops
    [err2], which the end of the stream leaves without a terminator. *)
Theorem processStderr_doubles_and_drops :
  option_map (fun t => Stderr (Task_Log t))
    (processStderr NewTask (oneChunk (bytes ("err1" ++ nl ++ "err2"))))
    = Some ("err1" ++ nl ++ nl)%string /\
  option_map (fun t => Stdout (Task_Log t))
    (processStdout NewTask (oneChunk (bytes ("err1" ++ nl ++ "err2"))))
    = Some ("err1" ++ nl ++ "err2" ++ nl)%string.
Proof.
  split; vm_compute; reflexivity.
Qed.

(** ** The file list *)

Lemma fileListLine_spec (files : list (list string)) (l : string) :
  fileListLine files l =
  if MatchString fileListRegexp l then files ++ [fileRecord l] else files.
Proof.
  unfold fileListLine, fileRecord.
  destruct (MatchString fileListRegexp l) eqn:E; [|reflexivity].
  destruct (RegexpFacts.FindStringSubmatch_shape _ _ E) as [whole [groups [H _]]].
  rewrite H. reflexivity.
Qed.

Lemma fold_fileListLine (lines : list string) (files : list (list string)) :
  fold_left fileListLine lines files =
  files ++ map fileRecord (filter (MatchString fileListRegexp) lines).
Proof.
  revert files. induction lines as [|l lines IH]; intros files; simpl.
  - rewrite app_nil_r. reflexivity.
  - rewrite IH, fileListLine_spec.
    destruct (MatchString fileListRegexp l); simpl.
    + rewrite <- app_assoc. reflexivity.
    + reflexivity.
Qed.

Lemma fileRecord_length (l : string) :
  MatchString fileListRegexp l = true -> List.length (fileRecord l) = 5%nat.
Proof.
  intros E. unfold fileRecord.
  destruct (RegexpFacts.FindStringSubmatch_shape _ _ E) as [whole [groups [H Hl]]].
  rewrite H. simpl. exact Hl.
Qed.

(** [GetFileList] returns one record per line of the log that matches the
    pattern, in the order of the lines, and skips the others; a record is
    the five captured substrings.  The pattern asks for exactly one space
    between the fields: for the log made of the line
    [-rw-r--r-- 1234 2024/01/02 03:04:05 file.txt] and of a line that does
    not match, the result is the one record of that line. *)
Lemma GetFileList_records :
  (forall t : Task,
      GetFileList t =
      map fileRecord
          (filter (MatchString fileListRegexp) (Split (Stdout (Task_Log t)) LF))
      /\ Forall (fun rec => List.length rec = 5%nat) (GetFileList t)) /\
  GetFileList (withStdout (listingLineOneSpace ++ nl ++ otherLine ++ nl))
    = [listingRecord].
Proof.
  split.
  - intros t.
    assert (H : GetFileList t =
                map fileRecord
                    (filter (MatchString fileListRegexp)
                            (Split (Stdout (Task_Log t)) LF))).
    { unfold GetFileList. rewrite fold_fileListLine. reflexivity. }
    split; [exact H|].
    rewrite H. apply Forall_forall. intros rec Hin.
    apply in_map_iff in Hin. destruct Hin as [l [<- Hl]].
    apply filter_In in Hl. apply fileRecord_length. apply Hl.
  - vm_compute. reflexivity.
Qed.

(** C5, at the input on which the code fails: the listing line
    [-rw-r--r--       1234 2024/01/02 03:04:05 file.txt], in which the size
    is padded with spaces as rsync prints it, has seven spaces between the
    permissions and the size; the pattern, with its single space, does not
    match it, and on the log made of that line and of a line that does not
    match either [GetFileList] returns no record instead of the one of the
    listing line. *)
Theorem GetFileList_padded_line :
  MatchString fileListRegexp listingLine = false /\
  GetFileList (withStdout (listingLine ++ nl ++ otherLine ++ nl)) = [] /\
  GetFileList (withStdout (listingLine ++ nl ++ otherLine ++ nl))
    <> [listingRecord].
Proof.
  repeat split; try (vm_compute; reflexivity).
  vm_compute. discriminate.
Qed.

(** ** Run *)

(** C7. When [Start] fails with [e], [Run] closes the stdout pipe and the
    stderr pipe, the two processors end, [wg.Wait()] returns and [Run]
    returns [e]; when the second pipe, [StdoutPipe], fails with [e], [Run]
    closes the stderr pipe and returns [e] at once: no processor was
    started, nor the process.  Neither depends on what [Wait] would return
    nor on whether the streams of a started process would end. *)
Theorem Run_failures (e : error) (start wait : option error)
    (outEnds errEnds : bool) :
  Run {| StderrPipe := None; StdoutPipe := None; Start := Some e;
         Wait := wait; StdoutEnds := outEnds; StderrEnds := errEnds |} world0
  = Some (Some e,
          {| trace := [EvStderrPipe; EvStdoutPipe; EvGo PipeStdout;
                       EvGo PipeStderr; EvAdd 2; EvStart;
                       EvClose PipeStdout; EvClose PipeStderr;
                       EvDone PipeStdout; EvDone PipeStderr; EvWgWait];
             closed := [PipeStderr; PipeStdout];
             started := false; workers := []; counter := 0 |}) /\
  Run {| StderrPipe := None; StdoutPipe := Some e; Start := start;
         Wait := wait; StdoutEnds := outEnds; StderrEnds := errEnds |} world0
  = Some (Some e,
          {| trace := [EvStderrPipe; EvStdoutPipe; EvClose PipeStderr];
             closed := [PipeStderr];
             started := false; workers := []; counter := 0 |}).
Proof.
  split; reflexivity.
Qed.
(** ** Run, further *)

(** Closing the pipes is what lets the wait return where the process was
    not started: with the two processors running on open pipes, [wg.Wait()]
    never returns. *)
Lemma wgWait_blocks_on_open_pipes (r : Rsync) :
  (go PipeStdout ;;; go PipeStderr ;;; wgAdd 2 ;;; wgWait r) world0 = None.
Proof.
  reflexivity.
Qed.

(** After a successful start of a process that lets its two streams end,
    [Run] waits for the two processors, then for the process, and returns
    what [Wait] returns. *)
Lemma Run_started (wait : option error) :
  Run {| StderrPipe := None; StdoutPipe := None; Start := None;
         Wait := wait; StdoutEnds := true; StderrEnds := true |} world0
  = Some (wait,
          {| trace := [EvStderrPipe; EvStdoutPipe; EvGo PipeStdout;
                       EvGo PipeStderr; EvAdd 2; EvStart;
                       EvDone PipeStdout; EvDone PipeStderr; EvWgWait;
                       EvWait];
             closed := []; started := true; workers := []; counter := 0 |}).
Proof.
  reflexivity.
Qed.

(** After a successful start of a process that keeps one of its streams
    open, [Run] stays in [wg.Wait()]: nothing closes the pipe. *)
Lemma Run_blocks (wait : option error) (outEnds errEnds : bool) :
  outEnds && errEnds = false ->
  Run {| StderrPipe := None; StdoutPipe := None; Start := None;
         Wait := wait; StdoutEnds := outEnds; StderrEnds := errEnds |} world0
  = None.
Proof.
  destruct outEnds, errEnds; try discriminate; reflexivity.
Qed.

(** A failure of the first pipe is returned before anything else is done. *)
Lemma Run_first_pipe_failure (e : error) (out start wait : option error)
    (outEnds errEnds : bool) :
  Run {| StderrPipe := Some e; StdoutPipe := out; Start := start;
         Wait := wait; StdoutEnds := outEnds; StderrEnds := errEnds |} world0
  = Some (Some e,
          {| trace := [EvStderrPipe]; closed := []; started := false;
             workers := []; counter := 0 |}).
Proof.
  reflexivity.
Qed.

(** A processor whose pipe was closed before any byte was read leaves the
    task as it is. *)
Lemma processors_on_closed_pipe (task : Task) :
  processStdout task [] = Some task /\ processStderr task [] = Some task.
Proof.
  split; reflexivity.
Qed.
(** * Further properties *)

(** ** What scanLines returns *)

(** X1. Where the buffer holds a terminator, the token of [scanLines] is
    what precedes the first one and the advance covers the token and the
    terminator: one byte, two for a carriage return followed by a line
    feed.  The end-of-stream flag plays no part. *)
Theorem scanLines_first_line (p : list ascii) (c : ascii) (q : list ascii)
    (atEOF : bool) :
  clean p -> isTerminator c = true ->
  scanLines (p ++ c :: q) atEOF = (len p + terminatorWidth c q, Some p, None).
Proof.
  intros Hp Hc.
  destruct (scanLines_terminated p c q atEOF Hp Hc) as [Hs _].
  rewrite Hs. f_equal. f_equal.
  unfold afterTerminator, terminatorWidth.
  destruct (Ascii.eqb c CR); [|lia].
  destruct q as [|c' q']; [unfold len; simpl; lia|].
  destruct (Ascii.eqb c' LF); unfold len; cbn [List.length]; lia.
Qed.

Lemma scanLines_first_line_witness :
  scanLines (bytes "ab" ++ CR :: LF :: bytes "cd") false
  = (len (bytes "ab") + terminatorWidth CR (LF :: bytes "cd"),
     Some (bytes "ab"), None).
Proof.
  apply (scanLines_first_line (bytes "ab") CR (LF :: bytes "cd") false);
    vm_compute; reflexivity.
Defined.

Lemma clean_app (p q : list ascii) :
  clean (p ++ q) <-> clean p /\ clean q.
Proof.
  unfold clean. rewrite forallb_app. apply andb_true_iff.
Qed.

Lemma not_clean_terminator (p : list ascii) (c : ascii) (q : list ascii) :
  isTerminator c = true -> ~ clean (p ++ c :: q).
Proof.
  intros Hc H. apply clean_app in H. destruct H as [_ H].
  unfold clean in H. simpl in H. rewrite Hc in H. discriminate.
Qed.

(** X2. [scanLines] returns no token exactly when the buffer holds no
    terminator and either the stream has not ended or the buffer is empty;
    it then asks for more data with an advance of 0. *)
Theorem scanLines_no_token_iff (data : list ascii) (atEOF : bool) :
  (snd (fst (scanLines data atEOF)) = None <->
   clean data /\ (atEOF = false \/ data = [])) /\
  (scanLines data atEOF = (0, None, None) <->
   clean data /\ (atEOF = false \/ data = [])).
Proof.
  pose proof (spanLine_app data) as Happ.
  pose proof (spanLine_clean data) as Hclean.
  pose proof (spanLine_terminator data) as Hterm.
  destruct (spanLine data) as [p q]. simpl in Happ, Hclean, Hterm.
  destruct q as [|c q].
  - rewrite app_nil_r in Happ. subst p.
    rewrite (scanLines_unterminated data atEOF Hclean).
    destruct atEOF.
    + destruct data as [|d data]; simpl.
      * split; (split; [intros _; split; [exact Hclean | right; reflexivity]
                       | reflexivity]).
      * split; (split; [discriminate | intros [_ [H | H]]; discriminate]).
    + simpl.
      split; (split; [intros _; split; [exact Hclean | left; reflexivity]
                     | reflexivity]).
  - assert (Hc : isTerminator c = true) by (apply (Hterm c q); reflexivity).
    destruct (scanLines_terminated p c q atEOF Hclean Hc) as [Hs _].
    rewrite Happ, Hs. simpl.
    split; (split; [discriminate
                   | intros [H _]; exfalso;
                     exact (not_clean_terminator p c q Hc H)]).
Qed.

(** X3. A token of [scanLines] is a prefix of the buffer, and the advance
    covers it and one or two more bytes, or exactly it for the last line at
    the end of the stream; in every case the advance is 1 at least, so that
    a scanner which gets a token has moved on. *)
Theorem scanLines_token_prefix (data : list ascii) (atEOF : bool)
    (advance : Z) (tok : list ascii) (err : option error) :
  scanLines data atEOF = (advance, Some tok, err) ->
  tok = firstn (List.length tok) data /\
  1 <= advance /\ len tok <= advance <= len tok + 2 /\ advance <= len data.
Proof.
  pose proof (spanLine_app data) as Happ.
  pose proof (spanLine_clean data) as Hclean.
  pose proof (spanLine_terminator data) as Hterm.
  destruct (spanLine data) as [p q]. simpl in Happ, Hclean, Hterm.
  destruct q as [|c q].
  - rewrite app_nil_r in Happ. subst p.
    rewrite (scanLines_unterminated data atEOF Hclean).
    destruct atEOF; [|discriminate].
    destruct data as [|d data]; [discriminate|].
    intros H. injection H as <- <- _.
    rewrite firstn_all. unfold len. cbn [List.length]. repeat split; lia.
  - assert (Hc : isTerminator c = true) by (apply (Hterm c q); reflexivity).
    destruct (scanLines_terminated p c q atEOF Hclean Hc) as [Hs _].
    pose proof (afterTerminator_length c q) as Hal.
    assert (Hal2 : (List.length q <= S (List.length (afterTerminator c q)))%nat).
    { unfold afterTerminator. destruct (Ascii.eqb c CR); [|lia].
      destruct q as [|c' q']; [simpl; lia|].
      destruct (Ascii.eqb c' LF); simpl; lia. }
    rewrite Happ, Hs. intros H. injection H as <- <- _.
    rewrite firstn_app, Nat.sub_diag, firstn_all. simpl firstn.
    rewrite app_nil_r. unfold len. rewrite length_app. cbn [List.length].
    repeat split; lia.
Qed.

Lemma scanLines_token_prefix_witness :
  bytes "ab" = firstn (List.length (bytes "ab")) (bytes "ab" ++ [CR; LF]) /\
  1 <= 4 /\ len (bytes "ab") <= 4 <= len (bytes "ab") + 2 /\
  4 <= len (bytes "ab" ++ [CR; LF]).
Proof.
  apply (scanLines_token_prefix (bytes "ab" ++ [CR; LF]) true 4 (bytes "ab") None).
  vm_compute. reflexivity.
Defined.

(** ** Strings *)

Lemma append_assoc (a b c : string) :
  ((a ++ b) ++ c)%string = (a ++ (b ++ c))%string.
Proof.
  induction a as [|x a IH]; simpl; [reflexivity|]. rewrite IH. reflexivity.
Qed.

Lemma append_nil_r (a : string) : (a ++ "")%string = a.
Proof.
  induction a as [|x a IH]; simpl; [reflexivity|]. rewrite IH. reflexivity.
Qed.

Lemma gostring_app (a b : list ascii) :
  gostring (a ++ b) = (gostring a ++ gostring b)%string.
Proof.
  unfold gostring.
  induction a as [|x a IH]; simpl; [reflexivity|]. rewrite IH. reflexivity.
Qed.

Lemma clean_cons (c : ascii) (p : list ascii) :
  clean (c :: p) -> Ascii.eqb c LF = false /\ clean p.
Proof.
  unfold clean, isTerminator, inCutset. simpl.
  destruct (Ascii.eqb c CR); simpl; [discriminate|].
  destruct (Ascii.eqb c LF); simpl; [discriminate|].
  intros H. split; [reflexivity | exact H].
Qed.

(** A line without terminator, written with its line feed, is read back by
    [Split] as one piece. *)
Lemma Split_line (tok : list ascii) (rest : string) :
  clean tok ->
  Split (gostring tok ++ nl ++ rest) LF = gostring tok :: Split rest LF.
Proof.
  induction tok as [|c tok IH]; intros Hc.
  - reflexivity.
  - apply clean_cons in Hc. destruct Hc as [Hc Htok].
    change (gostring (c :: tok) ++ nl ++ rest)%string
      with (String c (gostring tok ++ nl ++ rest)).
    cbn [Split]. rewrite Hc, (IH Htok). reflexivity.
Qed.

Lemma Split_joinLines (lines : list (list ascii)) :
  Forall clean lines ->
  Split (joinLines lines) LF = map gostring lines ++ [""].
Proof.
  induction 1 as [|tok lines Htok _ IH]; [reflexivity|].
  cbn [joinLines map app]. rewrite (Split_line tok _ Htok), IH. reflexivity.
Qed.

(** ** The lines of the scanner, for every way of reading the stream *)

Lemma trySplit_Token_clean (buf : list ascii) (atEOF : bool)
    (tok rest : list ascii) :
  trySplit scanLines buf atEOF = Token tok rest -> clean tok.
Proof.
  unfold trySplit.
  destruct ((0 <? len buf) || atEOF); [|discriminate].
  pose proof (scanLines_result buf atEOF) as R.
  destruct (scanLines buf atEOF) as [[advance token] err].
  destruct R as [_ [_ R]].
  destruct err; [discriminate|].
  destruct ((advance <? 0) || (len buf <? advance)); [discriminate|].
  destruct token as [t|]; [|discriminate].
  intros H. injection H as <- _. apply R. reflexivity.
Qed.

Lemma scanEOF_Token_clean (e : error) (r : Stream) (buf : list ascii)
    (start cap : Z) (tok : list ascii) (s' : Scanner) :
  scanEOF scanLines e r buf start cap = (Some tok, s') -> clean tok.
Proof.
  unfold scanEOF.
  destruct (trySplit scanLines buf true) as [t rest | e' | rest] eqn:E;
    try discriminate.
  intros H. injection H as <- _. exact (trySplit_Token_clean _ _ _ _ E).
Qed.

Lemma scanLoop_Token_clean (fuel : nat) (r : Stream) (buf : list ascii)
    (start cap : Z) (tok : list ascii) (s' : Scanner) :
  scanLoop scanLines fuel r buf start cap = Some (Some tok, s') -> clean tok.
Proof.
  revert r buf start cap.
  induction fuel as [|fuel IH]; intros r buf start cap; cbn [scanLoop];
    destruct (trySplit scanLines buf false) as [t rest | e | rest] eqn:E;
    try discriminate;
    try (intros H; injection H as <- _; exact (trySplit_Token_clean _ _ _ _ E));
    (destruct (makeRoom (start + (len buf - len rest)) cap (len rest))
       as [[start' cap']|]; [|discriminate]);
    destruct (readLoop (cap' - (start' + len rest)) r 0) as [[data [e|]] r'];
    try discriminate;
    try (intros H; injection H as H; exact (scanEOF_Token_clean _ _ _ _ _ _ _ H)).
  apply IH.
Qed.

Lemma Scan_Token_clean (s s' : Scanner) (tok : list ascii) :
  Scan scanLines s = Some (Some tok, s') -> clean tok.
Proof.
  unfold Scan. destruct (sc_err s) as [e|].
  - intros H. injection H as H. exact (scanEOF_Token_clean _ _ _ _ _ _ _ H).
  - apply scanLoop_Token_clean.
Qed.

Lemma scanTokens_clean (fuel : nat) (s : Scanner) (toks : list (list ascii)) :
  scanTokens scanLines fuel s = Some toks -> Forall clean toks.
Proof.
  revert s toks. induction fuel as [|fuel IH]; intros s toks; cbn [scanTokens].
  - discriminate.
  - destruct (Scan scanLines s) as [[[tok|] s']|] eqn:E; [| |discriminate].
    + destruct (scanTokens scanLines fuel s') as [toks'|] eqn:E'; [|discriminate].
      intros H. injection H as <-. constructor.
      * exact (Scan_Token_clean _ _ _ E).
      * exact (IH _ _ E').
    + intros H. injection H as <-. constructor.
Qed.

Lemma frameLines_lines_clean_aux (stdout : Stream) (lines : list (list ascii)) :
  frameLines stdout = Some lines -> Forall clean lines.
Proof.
  apply scanTokens_clean.
Qed.

(** X4. However the stream is cut into reads, no line that the stdout
    processor handles holds a carriage return or a line feed. *)
Theorem frameLines_lines_clean (stdout : Stream) (lines : list (list ascii)) :
  frameLines stdout = Some lines -> Forall clean lines.
Proof.
  apply scanTokens_clean.
Qed.

Lemma frameLines_lines_clean_witness :
  Forall clean [bytes "a"; []; bytes "b"].
Proof.
  apply (frameLines_lines_clean [bytes "a" ++ [CR]; [LF] ++ bytes "b" ++ [LF]]).
  vm_compute. reflexivity.
Defined.

(** ** The log and the state after the stdout processor *)

Lemma stdoutLines_log (lines : list (list ascii)) (task : Task) :
  Stdout (log (stdoutLines task lines))
  = (Stdout (log task) ++ joinLines lines)%string /\
  Stderr (log (stdoutLines task lines)) = Stderr (log task).
Proof.
  revert task. induction lines as [|tok lines IH]; intros task.
  - simpl. rewrite append_nil_r. split; reflexivity.
  - change (stdoutLines task (tok :: lines))
      with (stdoutLines (stdoutLine task (gostring tok)) lines).
    destruct (IH (stdoutLine task (gostring tok))) as [H1 H2].
    rewrite H1, H2. split; [|reflexivity].
    cbn [stdoutLine log Stdout joinLines]. fold nl.
    rewrite !append_assoc. reflexivity.
Qed.

(** X6. The stdout processor returns on every stream; it appends to
    [Log.Stdout] every line of the scanner, in order, each followed by one
    line feed, and leaves [Log.Stderr] as it is. *)
Theorem processStdout_log (task : Task) (stdout : Stream) :
  exists lines task',
    frameLines stdout = Some lines /\
    processStdout task stdout = Some task' /\
    Stdout (Task_Log task')
    = (Stdout (Task_Log task) ++ joinLines lines)%string /\
    Stderr (Task_Log task') = Stderr (Task_Log task).
Proof.
  destruct (frameLines_returns stdout) as [lines Hl].
  exists lines, (stdoutLines task lines).
  split; [exact Hl|]. split.
  - rewrite processStdout_frameLines, Hl. reflexivity.
  - apply stdoutLines_log.
Qed.

(** X7. After the stdout processor has run on a new task, [GetFileList]
    sees the lines of the scanner again: it returns the record of every one
    of them that matches the listing pattern, in order. *)
Theorem GetFileList_after_processStdout (stdout : Stream) :
  exists lines task',
    frameLines stdout = Some lines /\
    processStdout NewTask stdout = Some task' /\
    GetFileList task'
    = map fileRecord
          (filter (Regexp.MatchString fileListRegexp) (map gostring lines)).
Proof.
  destruct (frameLines_returns stdout) as [lines Hl].
  exists lines, (stdoutLines NewTask lines).
  split; [exact Hl|]. split.
  - rewrite processStdout_frameLines, Hl. reflexivity.
  - unfold GetFileList, Task_Log. cbn [Stdout].
    destruct (stdoutLines_log lines NewTask) as [H1 _]. rewrite H1.
    change (Stdout (log NewTask)) with "". cbn [append].
    rewrite (Split_joinLines lines (frameLines_lines_clean_aux stdout lines Hl)).
    rewrite fold_fileListLine, filter_app.
    replace (filter (Regexp.MatchString fileListRegexp) [""]) with (@nil string)
      by (vm_compute; reflexivity).
    rewrite app_nil_r. reflexivity.
Qed.

(** ** A line longer than the buffer of the scanner *)

Lemma clean_firstn (n m : nat) (l : list ascii) :
  (m <= n)%nat -> clean (firstn n l) -> clean (firstn m l).
Proof.
  intros Hm H.
  replace (firstn m l) with (firstn m (firstn n l))
    by (rewrite firstn_firstn; f_equal; lia).
  rewrite <- (firstn_skipn m (firstn n l)) in H.
  apply clean_app in H. apply H.
Qed.

Lemma scanLoop_too_long (fuel : nat) (r : Stream) (buf : list ascii)
    (start cap : Z) :
  fits start cap buf -> cap <= maxScanTokenSize ->
  noEmptyRead r ->
  (List.length (streamBytes r) <= fuel)%nat ->
  clean (firstn (Z.to_nat maxScanTokenSize) (buf ++ streamBytes r)) ->
  maxScanTokenSize <= len (buf ++ streamBytes r) ->
  exists s',
    scanLoop scanLines fuel r buf start cap = Some (None, s') /\
    sc_err s' = Some ErrTooLong.
Proof.
  revert r buf start cap.
  induction fuel as [|fuel IH]; intros r buf start cap [Hs Hc] Hcap Hr Hf Hcl Hm;
    (assert (Hb : clean buf)
      by (replace buf with (firstn (List.length buf) (buf ++ streamBytes r))
            by (rewrite firstn_app, Nat.sub_diag, firstn_all; apply app_nil_r);
          apply (clean_firstn (Z.to_nat maxScanTokenSize));
            [unfold len in *; lia | exact Hcl]));
    cbn [scanLoop]; rewrite (trySplit_unterminated_false buf Hb);
    replace (start + (len buf - len buf)) with start by lia;
    (destruct (makeRoom start cap (len buf)) as [[start' cap']|] eqn:Em;
     [| eexists; split; reflexivity ]);
    (apply makeRoom_Some in Em; [| unfold len in *; lia ..]);
    destruct Em as [Hs' [Hroom Hcap']]; specialize (Hcap' Hcap);
    destruct (readLoop (cap' - (start' + len buf)) r 0)
      as [[data [e|]] r'] eqn:Er;
    apply readLoop_spec in Er;
    destruct Er as [Hbytes [Hlen [Hr' [Hne [_ Hend]]]]].
  - exfalso. rewrite (Hend Hr ltac:(discriminate)) in Hm.
    unfold streamBytes in Hm. simpl in Hm. rewrite app_nil_r in Hm. lia.
  - exfalso. specialize (Hne eq_refl ltac:(lia)).
    destruct data; [congruence|]. rewrite Hbytes in Hf. simpl in Hf. lia.
  - exfalso. rewrite (Hend Hr ltac:(discriminate)) in Hm.
    unfold streamBytes in Hm. simpl in Hm. rewrite app_nil_r in Hm. lia.
  - specialize (Hne eq_refl ltac:(lia)).
    assert (Hd : (0 < List.length data)%nat)
      by (destruct data; [congruence | simpl; lia]).
    specialize (Hlen ltac:(lia)).
    apply IH.
    + unfold fits, len in *. rewrite length_app. lia.
    + exact Hcap'.
    + exact (Hr' Hr).
    + rewrite Hbytes, length_app in Hf. lia.
    + rewrite <- app_assoc, <- Hbytes. exact Hcl.
    + rewrite <- app_assoc, <- Hbytes. exact Hm.
Qed.

(** X8. Where the stream begins with 64 KiB or more without any terminator
    and no read returns without a byte, the scanner gives up before the
    first line: it yields no line, the stdout processor returns with the
    task as it was, and nothing of the stream, not even the lines that
    follow, reaches the state or the log. *)
Theorem processStdout_line_too_long (task : Task) (stdout : Stream) :
  noEmptyRead stdout ->
  clean (firstn (Z.to_nat maxScanTokenSize) (streamBytes stdout)) ->
  maxScanTokenSize <= len (streamBytes stdout) ->
  frameLines stdout = Some [] /\ processStdout task stdout = Some task.
Proof.
  intros Hr Hc Hm.
  destruct (scanLoop_too_long (S (List.length (streamBytes stdout)))
              stdout [] 0 0) as [s' [H _]];
    try assumption; try lia.
  - unfold fits, len. simpl. lia.
  - unfold maxScanTokenSize. lia.
  - unfold processStdout, frameLines.
    cbn [stdoutLoop scanTokens]. unfold Scan, NewScanner.
    cbn [sc_err sc_r sc_buf sc_start sc_cap]. rewrite H.
    split; reflexivity.
Qed.

Lemma processStdout_line_too_long_witness :
  frameLines
    ([repeat "x"%char (Z.to_nat 65536) ++ [LF] ++ bytes progressLine ++ [LF]])
  = Some [] /\
  processStdout NewTask
    ([repeat "x"%char (Z.to_nat 65536) ++ [LF] ++ bytes progressLine ++ [LF]])
  = Some NewTask.
Proof.
  apply (processStdout_line_too_long NewTask
           [repeat "x"%char (Z.to_nat 65536) ++ [LF] ++ bytes progressLine ++ [LF]]).
  - vm_compute. reflexivity.
  - vm_compute. reflexivity.
  - apply Z.leb_le. vm_compute. reflexivity.
Defined.

(** ** The state after the stdout processor *)

Lemma stdoutLine_no_match (task : Task) (logStr : string) :
  matchesAny logStr = false -> state (stdoutLine task logStr) = state task.
Proof.
  unfold matchesAny. intros H.
  apply orb_false_iff in H. destruct H as [H H4].
  apply orb_false_iff in H. destruct H as [H H3].
  apply orb_false_iff in H. destruct H as [H1 H2].
  unfold stdoutLine. rewrite H1, H2, H3, H4. reflexivity.
Qed.

Lemma stdoutLines_no_match (lines : list (list ascii)) (task : Task) :
  forallb (fun tok => negb (matchesAny (gostring tok))) lines = true ->
  state (stdoutLines task lines) = state task.
Proof.
  revert task. induction lines as [|tok lines IH]; intros task H.
  - reflexivity.
  - cbn [forallb] in H. apply andb_true_iff in H. destruct H as [H1 H2].
    apply negb_true_iff in H1.
    change (stdoutLines task (tok :: lines))
      with (stdoutLines (stdoutLine task (gostring tok)) lines).
    rewrite (IH _ H2). apply stdoutLine_no_match. exact H1.
Qed.

(** X9. Where none of the lines of the stream matches any of the four
    patterns, as in a listing, the state after the stdout processor is the
    state before it: a field that no line has shown keeps its value. *)
Theorem processStdout_no_match_keeps_state (task : Task) (stdout : Stream)
    (lines : list (list ascii)) :
  frameLines stdout = Some lines ->
  forallb (fun tok => negb (matchesAny (gostring tok))) lines = true ->
  option_map Task_State (processStdout task stdout) = Some (Task_State task).
Proof.
  intros Hl Hn. rewrite processStdout_frameLines, Hl. cbn [option_map].
  unfold Task_State. rewrite (stdoutLines_no_match lines task Hn). reflexivity.
Qed.

Lemma processStdout_no_match_keeps_state_witness :
  option_map Task_State
    (processStdout (withState progressState)
       [bytes "sending incremental file list" ++ [LF] ++ bytes "dir/fi";
        bytes "le.txt" ++ [CR]])
  = Some (Task_State (withState progressState)).
Proof.
  apply (processStdout_no_match_keeps_state (withState progressState)
           [bytes "sending incremental file list" ++ [LF] ++ bytes "dir/fi";
            bytes "le.txt" ++ [CR]]
           [bytes "sending incremental file list"; bytes "dir/file.txt"]).
  - vm_compute. reflexivity.
  - vm_compute. reflexivity.
Defined.

(** The first of the matches from the beginning of the text is the match of
    [doExecute]. *)
Lemma allMatches_head (r : Regexp.Regexp) (s : string) (fuel n : nat)
    (c : Regexp.Caps) :
  Regexp.doExecute r s 0 = Some c -> (0 < n)%nat ->
  exists more, Regexp.allMatches r s (S fuel) 0 n None = c :: more.
Proof.
  intros E Hn.
  destruct (RegexpFacts.doExecute_shape _ _ _ _ E) as [_ [lo [hi H0]]].
  cbn [Regexp.allMatches].
  replace (0 <? n)%nat with true by (symmetry; apply Nat.ltb_lt; exact Hn).
  cbn [Nat.leb andb]. rewrite E, H0.
  destruct (hi =? 0)%nat.
  - destruct (DecodeRuneInString (dropBytes 0 s)) as [rn w].
    eexists. reflexivity.
  - eexists. reflexivity.
Qed.

Lemma wholeMatch_doExecute (mt : matcher) (s : string) (c : Regexp.Caps) :
  Regexp.doExecute (regExp mt) s 0 = Some c ->
  wholeMatch mt s = nth 0 (Regexp.submatches s c) "".
Proof.
  intros E. unfold wholeMatch, Regexp.FindStringSubmatch. rewrite E.
  destruct (RegexpFacts.doExecute_shape _ _ _ _ E) as [Hl _].
  destruct c as [|g c]; [discriminate | reflexivity].
Qed.

(** Under its test, the speed is the text of the leftmost match: the row
    that [getTaskSpeed] reads has its two entries. *)
Lemma Speed_of_match (logStr : string) :
  Match speedMatcher logStr = true ->
  getTaskSpeed (ExtractAllStringSubmatch speedMatcher logStr 2)
  = wholeMatch speedMatcher logStr.
Proof.
  unfold Match, Regexp.MatchString, ExtractAllStringSubmatch,
    Regexp.FindAllStringSubmatch.
  destruct (Regexp.doExecute (regExp speedMatcher) logStr 0) as [c|] eqn:E;
    [|discriminate].
  intros _. rewrite (wholeMatch_doExecute _ _ _ E).
  replace (String.length logStr + 2)%nat with (S (S (String.length logStr)))
    by lia.
  destruct (allMatches_head _ logStr (S (String.length logStr))
              (Regexp.matchLimit logStr 2) c E) as [more Hm].
  { unfold Regexp.matchLimit. simpl. lia. }
  rewrite Hm. cbn [map].
  destruct (RegexpFacts.doExecute_shape _ _ _ _ E) as [Hl _].
  unfold getTaskSpeed. cbn [nth].
  replace (len (Regexp.submatches logStr c :: map (Regexp.submatches logStr) more) <? 1)
    with false
    by (symmetry; apply Z.ltb_ge; unfold len; cbn [List.length]; lia).
  replace (len (Regexp.submatches logStr c) <? 2) with false.
  - reflexivity.
  - symmetry. apply Z.ltb_ge. unfold len, Regexp.submatches.
    rewrite length_map, Hl. change (Regexp.NumSubexp (regExp speedMatcher)) with 1%nat.
    lia.
Qed.

Lemma TimeRemaining_of_match (logStr : string) :
  Match timeRemainingMatcher logStr = true ->
  index0 (All timeRemainingMatcher logStr)
  = wholeMatch timeRemainingMatcher logStr.
Proof.
  unfold Match, Regexp.MatchString, All, Regexp.FindAllString.
  destruct (Regexp.doExecute (regExp timeRemainingMatcher) logStr 0) as [c|] eqn:E;
    [|discriminate].
  intros _. rewrite (wholeMatch_doExecute _ _ _ E).
  replace (String.length logStr + 2)%nat with (S (S (String.length logStr)))
    by lia.
  destruct (allMatches_head _ logStr (S (String.length logStr))
              (Regexp.matchLimit logStr (-1)) c E) as [more Hm].
  { unfold Regexp.matchLimit. simpl. lia. }
  rewrite Hm. reflexivity.
Qed.

(** X10. What one line does to the three text fields of the state: each
    field whose pattern matches takes the text found in the line, the first
    group of the leftmost match for [DownloadedTotal], the whole leftmost
    match for [TimeRemaining] and for [Speed] -- the test of [getTaskSpeed]
    never gives the empty string there -- and each other field keeps its
    value. *)
Theorem stdoutLine_text_fields (task : Task) (logStr : string) :
  DownloadedTotal (Task_State (stdoutLine task logStr)) =
    (if Match totalMatcher logStr then Extract totalMatcher logStr
     else DownloadedTotal (Task_State task)) /\
  TimeRemaining (Task_State (stdoutLine task logStr)) =
    (if Match timeRemainingMatcher logStr
     then wholeMatch timeRemainingMatcher logStr
     else TimeRemaining (Task_State task)) /\
  Speed (Task_State (stdoutLine task logStr)) =
    (if Match speedMatcher logStr then wholeMatch speedMatcher logStr
     else Speed (Task_State task)).
Proof.
  pose proof (Speed_of_match logStr) as Hs.
  pose proof (TimeRemaining_of_match logStr) as Ht.
  unfold stdoutLine, Task_State.
  destruct (Match totalMatcher logStr);
    destruct (Match progressMatcher logStr);
    destruct (Match timeRemainingMatcher logStr);
    destruct (Match speedMatcher logStr);
    cbn [state DownloadedTotal TimeRemaining Speed setDownloadedTotal
         setProgress setTimeRemaining setSpeed];
    try rewrite (Hs eq_refl); try rewrite (Ht eq_refl);
    repeat split; reflexivity.
Qed.

(** ** The stderr processor on every stream *)

Lemma IndexAny_split (chars buf : list ascii) :
  0 <= IndexAny buf chars ->
  exists p c q,
    buf = p ++ c :: q /\
    forallb (fun x => negb (inCutset chars x)) p = true /\
    inCutset chars c = true /\
    IndexAny buf chars = len p.
Proof.
  induction buf as [|d buf IH]; cbn [IndexAny]; [lia|].
  destruct (inCutset chars d) eqn:Ed.
  - intros _. exists [], d, buf. repeat split; assumption.
  - destruct (IndexAny buf chars <? 0) eqn:E; [lia|].
    apply Z.ltb_ge in E. intros _.
    destruct (IH E) as [p [c [q [Hb [Hp [Hc Hi]]]]]].
    exists (d :: p), c, q. repeat split.
    + rewrite Hb. reflexivity.
    + cbn [forallb]. rewrite Ed, Hp. reflexivity.
    + exact Hc.
    + rewrite Hi. unfold len. cbn [List.length]. lia.
Qed.

Lemma inCutset_LF (c : ascii) : inCutset [LF] c = true -> c = LF.
Proof.
  unfold inCutset. simpl. rewrite orb_false_r. apply Ascii.eqb_eq.
Qed.

Lemma noLF_app (p q : list ascii) : noLF (p ++ q) <-> noLF p /\ noLF q.
Proof.
  unfold noLF. rewrite forallb_app. apply andb_true_iff.
Qed.

Lemma slice_line (p q buf : list ascii) :
  buf = p ++ LF :: q -> slice buf 0 (len p + 1) = p ++ [LF].
Proof.
  intros ->.
  replace (p ++ LF :: q) with ((p ++ [LF]) ++ q)
    by (rewrite <- app_assoc; reflexivity).
  replace (len p + 1) with (len (p ++ [LF]))
    by (unfold len; rewrite length_app; simpl; lia).
  apply slice_app_prefix.
Qed.

Lemma readString_eq (delim : ascii) (fuel : nat) (r : Stream)
    (buf acc : list ascii) :
  readString delim fuel r buf acc =
  if 0 <=? IndexAny buf [delim] then
    Some (gostring (acc ++ slice buf 0 (IndexAny buf [delim] + 1)), None,
          {| rd_r := r;
             rd_buf := skipn (Z.to_nat (IndexAny buf [delim] + 1)) buf |})
  else
    match fillLoop
            (defaultBufSize
             - len (if defaultBufSize <=? len buf then [] else buf))
            r maxConsecutiveEmptyReads with
    | (data, Some e, r') =>
        Some (gostring ((if defaultBufSize <=? len buf then acc ++ buf else acc)
                        ++ (if defaultBufSize <=? len buf then [] else buf)
                        ++ data),
              Some e, {| rd_r := r'; rd_buf := [] |})
    | (data, None, r') =>
        match fuel with
        | O => None
        | S fuel' =>
            readString delim fuel' r'
              ((if defaultBufSize <=? len buf then [] else buf) ++ data)
              (if defaultBufSize <=? len buf then acc ++ buf else acc)
        end
    end.
Proof.
  destruct fuel; reflexivity.
Qed.

(** What [ReadString] returns, for the bytes that the reader has still to
    deliver, where no read returns without a byte: the first line with its
    line feed, after the full buffers [acc] collected before, or an error at
    the end of the stream where no line feed is left. *)
Lemma readString_spec (fuel : nat) (r : Stream) (buf acc : list ascii) :
  noEmptyRead r ->
  (List.length (streamBytes r) <= fuel)%nat ->
  (exists p q rd',
      noLF p /\ buf ++ streamBytes r = p ++ LF :: q /\
      readString LF fuel r buf acc
      = Some (gostring (acc ++ p ++ [LF]), None, rd') /\
      rd_buf rd' ++ streamBytes (rd_r rd') = q /\
      noEmptyRead (rd_r rd')) \/
  (noLF (buf ++ streamBytes r) /\
   exists str e rd', readString LF fuel r buf acc = Some (str, Some e, rd')).
Proof.
  remember (List.length (streamBytes r)) as n eqn:En.
  revert fuel r buf acc En.
  induction n as [n IH] using lt_wf_ind.
  intros fuel r buf acc En Hr Hf.
  rewrite readString_eq.
  destruct (0 <=? IndexAny buf [LF]) eqn:Ei.
  - apply Z.leb_le in Ei.
    destruct (IndexAny_split [LF] buf Ei) as [p [c [q [Hb [Hp [Hc Hi]]]]]].
    apply inCutset_LF in Hc. subst c. left.
    exists p, (q ++ streamBytes r). eexists.
    split; [exact Hp|]. split; [rewrite Hb, <- app_assoc; reflexivity|].
    rewrite Hi. split; [|split].
    + rewrite (slice_line p q buf Hb). reflexivity.
    + cbn [rd_buf rd_r]. rewrite Hb, skipn_app_1. reflexivity.
    + exact Hr.
  - apply Z.leb_gt in Ei.
    assert (Hbuf : noLF buf) by (apply (IndexAny_none_clean [LF] buf); exact Ei).
    set (buf' := if defaultBufSize <=? len buf then [] else buf).
    set (acc' := if defaultBufSize <=? len buf then acc ++ buf else acc).
    assert (Hroom : 0 < defaultBufSize - len buf').
    { unfold buf'. destruct (defaultBufSize <=? len buf) eqn:Eb;
        [unfold defaultBufSize, len; simpl; lia | apply Z.leb_gt in Eb; lia]. }
    destruct (fillLoop (defaultBufSize - len buf') r maxConsecutiveEmptyReads)
      as [[data [e|]] r'] eqn:Er;
      apply fillLoop_spec in Er;
      destruct Er as [Hbytes [Hlen [Hr' [Hne [Hnil Hend]]]]].
    + right. split.
      * rewrite (Hend Hr ltac:(unfold maxConsecutiveEmptyReads; lia)
                   ltac:(discriminate)).
        unfold streamBytes. cbn [List.concat]. rewrite app_nil_r. exact Hbuf.
      * eexists; eexists; eexists; reflexivity.
    + specialize (Hne eq_refl Hroom).
      assert (Hd : (0 < List.length data)%nat)
        by (destruct data; [congruence | simpl; lia]).
      destruct fuel as [|fuel].
      { exfalso. rewrite En, Hbytes, length_app in Hf. lia. }
      destruct (IH (List.length (streamBytes r'))
                  ltac:(rewrite En, Hbytes, length_app; lia)
                  fuel r' (buf' ++ data) acc' eq_refl (Hr' Hr)
                  ltac:(rewrite En, Hbytes, length_app in Hf; lia))
        as [[p [q [rd' [Hp [Hd' [Hs [Hq Hrd]]]]]]] | [Hnl [str [e [rd' Hs]]]]].
      * left. unfold buf', acc' in *.
        destruct (defaultBufSize <=? len buf).
        -- exists (buf ++ p), q, rd'. split; [apply noLF_app; split; assumption|].
           split; [rewrite Hbytes, <- app_assoc; cbn [app] in Hd'; rewrite Hd';
                   reflexivity|].
           split; [rewrite Hs, <- !app_assoc; reflexivity|].
           split; assumption.
        -- exists p, q, rd'. split; [exact Hp|].
           split; [rewrite Hbytes, app_assoc; exact Hd'|].
           split; [exact Hs|]. split; assumption.
      * right. unfold buf', acc' in *. split.
        -- rewrite Hbytes.
           destruct (defaultBufSize <=? len buf).
           ++ apply noLF_app. split; [exact Hbuf | exact Hnl].
           ++ rewrite app_assoc. exact Hnl.
        -- exists str, e, rd'. exact Hs.
Qed.

Lemma stderrKept_line (p q cur : list ascii) :
  noLF p ->
  stderrKept cur (p ++ LF :: q) = rev cur ++ p ++ [LF; LF] ++ stderrKept [] q.
Proof.
  revert cur. induction p as [|c p IH]; intros cur Hp.
  - reflexivity.
  - unfold noLF in Hp. cbn [forallb] in Hp.
    apply andb_true_iff in Hp. destruct Hp as [Hc Hp].
    apply negb_true_iff in Hc. unfold inCutset in Hc. simpl in Hc.
    rewrite orb_false_r in Hc.
    cbn [app stderrKept]. rewrite Hc, (IH (c :: cur) Hp).
    cbn [rev]. rewrite <- app_assoc. reflexivity.
Qed.

Lemma stderrKept_tail (p cur : list ascii) : noLF p -> stderrKept cur p = [].
Proof.
  revert cur. induction p as [|c p IH]; intros cur Hp.
  - reflexivity.
  - unfold noLF in Hp. cbn [forallb] in Hp.
    apply andb_true_iff in Hp. destruct Hp as [Hc Hp].
    apply negb_true_iff in Hc. unfold inCutset in Hc. simpl in Hc.
    rewrite orb_false_r in Hc.
    cbn [stderrKept]. rewrite Hc. apply IH. exact Hp.
Qed.

Lemma appendStderr_app (task : Task) (a b : string) :
  appendStderr (appendStderr task a) b = appendStderr task (a ++ b).
Proof.
  unfold appendStderr. cbn [state log Stderr Stdout].
  rewrite append_assoc. reflexivity.
Qed.

Lemma appendStderr_nil (task : Task) : appendStderr task "" = task.
Proof.
  destruct task as [st [err out]]. unfold appendStderr. cbn [state log Stderr Stdout].
  rewrite append_nil_r. reflexivity.
Qed.

Lemma stderrLoop_spec (fuel : nat) (rd : Reader) (task : Task) :
  noEmptyRead (rd_r rd) ->
  (pendingRead rd < fuel)%nat ->
  stderrLoop fuel rd task
  = Some (appendStderr task
            (gostring (stderrKept [] (rd_buf rd ++ streamBytes (rd_r rd))))).
Proof.
  revert rd task. induction fuel as [|fuel IH]; intros rd task Hne Hf; [lia|].
  cbn [stderrLoop]. unfold ReadString.
  destruct (readString_spec (S (List.length (streamBytes (rd_r rd))))
              (rd_r rd) (rd_buf rd) [] Hne ltac:(lia))
    as [[p [q [rd' [Hp [Hd [Hr [Hq Hne']]]]]]] | [Hn [str [e [rd' Hr]]]]].
  - rewrite Hr, Hd, (stderrKept_line p q [] Hp).
    assert (Hc : (pendingRead rd' < pendingRead rd)%nat).
    { unfold pendingRead. rewrite <- !length_app, Hq, Hd, length_app.
      cbn [List.length]. lia. }
    rewrite IH by (try exact Hne'; lia).
    rewrite appendStderr_app, Hq. f_equal. f_equal.
    cbn [rev app]. rewrite !gostring_app, !append_assoc. reflexivity.
  - rewrite Hr, (stderrKept_tail _ [] Hn).
    change (gostring []) with "". rewrite appendStderr_nil. reflexivity.
Qed.

(** X11. Where no read returns without a byte, the stderr processor
    returns, and what it does depends on the bytes of the stream only, not
    on how the reads cut them: it appends to [Log.Stderr] every line that
    ends with a line feed, followed by that line feed and one more, drops
    what follows the last line feed, and leaves the state and [Log.Stdout]
    as they are. *)
Theorem processStderr_log (task : Task) (stderr : Stream) :
  noEmptyRead stderr ->
  processStderr task stderr
  = Some {| state := state task;
            log := {| Stderr := (Stderr (log task)
                                 ++ gostring (stderrKept [] (streamBytes stderr)))%string;
                      Stdout := Stdout (log task) |} |}.
Proof.
  intros Hne. unfold processStderr. rewrite stderrLoop_spec.
  - reflexivity.
  - exact Hne.
  - unfold pendingRead, NewReader. simpl. lia.
Qed.

Lemma processStderr_log_witness :
  processStderr NewTask [bytes "warn"; bytes "ing" ++ [LF] ++ bytes "rest"]
  = Some {| state := state NewTask;
            log := {| Stderr := ("warning" ++ nl ++ nl)%string;
                      Stdout := "" |} |}.
Proof.
  apply (processStderr_log NewTask
           [bytes "warn"; bytes "ing" ++ [LF] ++ bytes "rest"]).
  vm_compute. reflexivity.
Defined.

(** ** getTaskProgress *)

Lemma Split_no_sep (sep : ascii) (s : string) :
  containsByte sep s = false -> Split s sep = [s].
Proof.
  induction s as [|c s IH]; cbn [containsByte Split]; [reflexivity|].
  intros H. apply orb_false_iff in H. destruct H as [Hc Hs].
  rewrite Hc, (IH Hs). reflexivity.
Qed.

Lemma Split_app_sep (sep : ascii) (a t : string) :
  containsByte sep a = false ->
  Split (a ++ String sep t) sep = a :: Split t sep.
Proof.
  induction a as [|c a IH]; cbn [containsByte append Split].
  - intros _. rewrite Ascii.eqb_refl. reflexivity.
  - intros H. apply orb_false_iff in H. destruct H as [Hc Ha].
    rewrite Hc, (IH Ha). reflexivity.
Qed.

(** X12. A string without any "/" has one field only, and
    [getTaskProgress] returns (0, 0) for it, whatever the string holds. *)
Theorem getTaskProgress_no_separator (remTotalString : string) :
  containsByte "/" remTotalString = false ->
  getTaskProgress remTotalString = (0, 0).
Proof.
  intros H. unfold getTaskProgress. rewrite (Split_no_sep _ _ H). reflexivity.
Qed.

Lemma getTaskProgress_no_separator_witness : getTaskProgress "42" = (0, 0).
Proof.
  apply (getTaskProgress_no_separator "42"). vm_compute. reflexivity.
Defined.

(** X13. For a string made of a first field, a "/" and a second field,
    [getTaskProgress] returns the integers that [Atoi] returns for the two
    fields, whether [Atoi] reports an error or not; what follows a second
    "/" is ignored. *)
Theorem getTaskProgress_fields (a b more : string) :
  containsByte "/" a = false -> containsByte "/" b = false ->
  getTaskProgress (a ++ String "/" b) = (fst (Atoi a), fst (Atoi b)) /\
  getTaskProgress (a ++ String "/" (b ++ String "/" more))
  = (fst (Atoi a), fst (Atoi b)).
Proof.
  intros Ha Hb. unfold getTaskProgress. split.
  - rewrite (Split_app_sep _ a b Ha), (Split_no_sep _ b Hb). reflexivity.
  - rewrite (Split_app_sep _ a _ Ha), (Split_app_sep _ b more Hb).
    replace (len (a :: b :: Split more "/") <? 2) with false; [reflexivity|].
    symmetry. apply Z.ltb_ge. unfold len. cbn [List.length]. lia.
Qed.

Lemma getTaskProgress_fields_witness :
  getTaskProgress "5/10" = (fst (Atoi "5"), fst (Atoi "10")) /\
  getTaskProgress "5/10/x" = (fst (Atoi "5"), fst (Atoi "10")).
Proof.
  apply (getTaskProgress_fields "5" "10" "x"); vm_compute; reflexivity.
Defined.

(** ** Run on every process handle *)



(** X15. The order of what [Run] has done whenever it returns, for every
    process handle: the process is started only after the two pipes were
    asked for, the two processors spawned and the counter raised; a pipe
    is closed by [Run] only after that pipe was asked for; and [Wait] is
    called only after a start, after each processor has ended and after the
    wait for them has returned. *)
Theorem Run_order (r : Rsync) (res : option error) (w : World) :
  Run r world0 = Some (res, w) ->
  forallb (fun ab => orderedIn (fst ab) (snd ab) (trace w))
    [(EvStderrPipe, EvStart); (EvStdoutPipe, EvStart);
     (EvGo PipeStdout, EvStart); (EvGo PipeStderr, EvStart);
     (EvAdd 2, EvStart);
     (EvStderrPipe, EvClose PipeStderr); (EvStdoutPipe, EvClose PipeStdout);
     (EvStart, EvWait); (EvDone PipeStdout, EvWait);
     (EvDone PipeStderr, EvWait); (EvWgWait, EvWait)] = true.
Proof.
  destruct r as [[e1|] [e2|] [e3|] [e4|] [|] [|]];
    intros H; try discriminate H;
    vm_compute in H; injection H as <- <-; vm_compute; reflexivity.
Qed.

Lemma Run_order_witness :
  forallb
    (fun ab =>
       orderedIn (fst ab) (snd ab)
         [EvStderrPipe; EvStdoutPipe; EvGo PipeStdout; EvGo PipeStderr;
          EvAdd 2; EvStart; EvDone PipeStdout; EvDone PipeStderr; EvWgWait;
          EvWait])
    [(EvStderrPipe, EvStart); (EvStdoutPipe, EvStart);
     (EvGo PipeStdout, EvStart); (EvGo PipeStderr, EvStart);
     (EvAdd 2, EvStart);
     (EvStderrPipe, EvClose PipeStderr); (EvStdoutPipe, EvClose PipeStdout);
     (EvStart, EvWait); (EvDone PipeStdout, EvWait);
     (EvDone PipeStderr, EvWait); (EvWgWait, EvWait)] = true.
Proof.
  apply (Run_order
           {| StderrPipe := None; StdoutPipe := None; Start := None;
              Wait := None; StdoutEnds := true; StderrEnds := true |}
           None
           {| trace := [EvStderrPipe; EvStdoutPipe; EvGo PipeStdout;
                        EvGo PipeStderr; EvAdd 2; EvStart;
                        EvDone PipeStdout; EvDone PipeStderr; EvWgWait;
                        EvWait];
              closed := []; started := true; workers := []; counter := 0 |}).
  vm_compute. reflexivity.
Defined.
(** ** The scanner on a stream without carriage return and line feed pairs *)

Lemma spanLine_terminated (p : list ascii) (c : ascii) (q : list ascii) :
  clean p -> isTerminator c = true -> spanLine (p ++ c :: q) = (p, c :: q).
Proof.
  intros Hp Hc. induction p as [|d p IH]; cbn [app spanLine].
  - rewrite Hc. reflexivity.
  - unfold clean in Hp. cbn [forallb] in Hp.
    apply andb_true_iff in Hp. destruct Hp as [Hd Hp].
    apply negb_true_iff in Hd. rewrite Hd, (IH Hp). reflexivity.
Qed.

Lemma spanLine_unterminated (p : list ascii) :
  clean p -> spanLine p = (p, []).
Proof.
  intros Hp. induction p as [|d p IH]; cbn [spanLine]; [reflexivity|].
  unfold clean in Hp. cbn [forallb] in Hp.
  apply andb_true_iff in Hp. destruct Hp as [Hd Hp].
  apply negb_true_iff in Hd. rewrite Hd, (IH Hp). reflexivity.
Qed.

Lemma spanLine_clean_prefix (p x : list ascii) :
  clean p ->
  spanLine (p ++ x) = (p ++ fst (spanLine x), snd (spanLine x)).
Proof.
  intros Hp. induction p as [|d p IH]; cbn [app spanLine].
  - destruct (spanLine x); reflexivity.
  - unfold clean in Hp. cbn [forallb] in Hp.
    apply andb_true_iff in Hp. destruct Hp as [Hd Hp].
    apply negb_true_iff in Hd. rewrite Hd, (IH Hp). reflexivity.
Qed.

Lemma noCRLF_suffix (p q : list ascii) :
  noCRLF (p ++ q) = true -> noCRLF q = true.
Proof.
  induction p as [|d p IH]; [exact (fun H => H)|].
  cbn [app noCRLF]. intros H. apply andb_true_iff in H. apply IH, H.
Qed.

Lemma noCRLF_afterTerminator (p : list ascii) (c : ascii) (q x : list ascii) :
  noCRLF (p ++ c :: q ++ x) = true -> afterTerminator c q = q.
Proof.
  intros H. apply noCRLF_suffix in H. cbn [noCRLF] in H.
  apply andb_true_iff in H. destruct H as [H _]. apply negb_true_iff in H.
  unfold afterTerminator. destruct (Ascii.eqb c CR); [|reflexivity].
  destruct q as [|c' q']; [reflexivity|].
  cbn [andb app] in H. rewrite H. reflexivity.
Qed.

Lemma scanLoop_eq (split : SplitFunc) (fuel : nat) (r : Stream)
    (buf : list ascii) (start cap : Z) :
  scanLoop split fuel r buf start cap =
  match trySplit split buf false with
  | Token tok rest =>
      Some (Some tok, {| sc_r := r; sc_buf := rest; sc_err := None;
                         sc_start := start + (len buf - len rest);
                         sc_cap := cap |})
  | Fail e =>
      Some (None, {| sc_r := r; sc_buf := buf; sc_err := Some e;
                     sc_start := start; sc_cap := cap |})
  | More rest =>
      match makeRoom (start + (len buf - len rest)) cap (len rest) with
      | None =>
          Some (None, {| sc_r := r; sc_buf := rest; sc_err := Some ErrTooLong;
                         sc_start := start + (len buf - len rest);
                         sc_cap := cap |})
      | Some (start', cap') =>
          match readLoop (cap' - (start' + len rest)) r 0 with
          | (data, Some e, r') =>
              Some (scanEOF split e r' (rest ++ data) start' cap')
          | (data, None, r') =>
              match fuel with
              | O => None
              | S fuel' => scanLoop split fuel' r' (rest ++ data) start' cap'
              end
          end
      end
  end.
Proof.
  destruct fuel; reflexivity.
Qed.

(** One call of [Scan] where no error was met yet: the next line, with what
    follows its terminator left to the scanner; at the end of the stream,
    what is left, if anything. *)
Lemma scanLoop_line (fuel : nat) (r : Stream) (buf : list ascii)
    (start cap : Z) :
  fits start cap buf -> cap <= maxScanTokenSize ->
  noEmptyRead r ->
  (List.length (streamBytes r) <= fuel)%nat ->
  noCRLF (buf ++ streamBytes r) = true ->
  len (fst (spanLine (buf ++ streamBytes r))) < maxScanTokenSize ->
  exists tok s',
    scanLoop scanLines fuel r buf start cap = Some (tok, s') /\
    match snd (spanLine (buf ++ streamBytes r)) with
    | _ :: q =>
        tok = Some (fst (spanLine (buf ++ streamBytes r))) /\
        sc_err s' = None /\ wfScanner s' /\
        sc_cap s' <= maxScanTokenSize /\ noEmptyRead (sc_r s') /\
        sc_buf s' ++ streamBytes (sc_r s') = q
    | [] =>
        tok = match buf ++ streamBytes r with
              | [] => None
              | _ => Some (buf ++ streamBytes r)
              end /\
        sc_err s' <> None /\ sc_buf s' = []
    end.
Proof.
  remember (List.length (streamBytes r)) as n eqn:En.
  revert fuel r buf start cap En.
  induction n as [n IH] using lt_wf_ind.
  intros fuel r buf start cap En [Hs Hc] Hcap Hr Hf Hn Hl.
  rewrite scanLoop_eq.
  pose proof (spanLine_app buf) as Happ.
  pose proof (spanLine_clean buf) as Hclean.
  pose proof (spanLine_terminator buf) as Hterm.
  destruct (spanLine buf) as [pb qb]. cbn [fst snd] in Happ, Hclean, Hterm.
  destruct qb as [|cb qb].
  - (* no terminator is buffered: read *)
    rewrite app_nil_r in Happ. subst pb.
    rewrite (trySplit_unterminated_false buf Hclean).
    replace (start + (len buf - len buf)) with start by lia.
    destruct (makeRoom start cap (len buf)) as [[start' cap']|] eqn:Em.
    + apply makeRoom_Some in Em; [| unfold len in *; lia ..].
      destruct Em as [Hs' [Hroom Hcap']]. specialize (Hcap' Hcap).
      destruct (readLoop (cap' - (start' + len buf)) r 0)
        as [[data [e|]] r'] eqn:Er;
        apply readLoop_spec in Er;
        destruct Er as [Hbytes [Hlen [Hr' [Hne [Hnil Hend]]]]].
      * (* the end of the stream *)
        rewrite (Hnil ltac:(discriminate)), app_nil_r.
        rewrite (Hend Hr ltac:(discriminate)).
        unfold streamBytes. cbn [List.concat]. rewrite app_nil_r.
        rewrite (spanLine_unterminated buf Hclean). cbn [snd].
        unfold scanEOF. rewrite (trySplit_unterminated_true buf Hclean).
        destruct buf as [|d buf].
        -- eexists; eexists; split; [reflexivity|].
           cbn [sc_err sc_buf]. repeat split; discriminate.
        -- eexists; eexists; split; [reflexivity|].
           cbn [sc_err sc_buf]. repeat split; discriminate.
      * specialize (Hne eq_refl ltac:(lia)).
        assert (Hd : (0 < List.length data)%nat)
          by (destruct data; [congruence | simpl; lia]).
        specialize (Hlen ltac:(lia)).
        assert (Hb : (buf ++ data) ++ streamBytes r' = buf ++ streamBytes r)
          by (rewrite <- app_assoc, <- Hbytes; reflexivity).
        destruct fuel as [|fuel].
        { exfalso. rewrite En, Hbytes, length_app in Hf. lia. }
        rewrite <- Hb.
        apply (IH (List.length (streamBytes r'))).
        -- rewrite En, Hbytes, length_app. lia.
        -- reflexivity.
        -- unfold fits, len in *. rewrite length_app. lia.
        -- exact Hcap'.
        -- exact (Hr' Hr).
        -- rewrite En, Hbytes, length_app in Hf. lia.
        -- rewrite Hb. exact Hn.
        -- rewrite Hb. exact Hl.
    + (* the buffer cannot be full *)
      exfalso. apply makeRoom_None in Em; [| unfold len in *; lia ..].
      rewrite (spanLine_clean_prefix buf _ Hclean) in Hl. cbn [fst] in Hl.
      unfold len in *. rewrite length_app in Hl. lia.
  - (* a terminator is buffered *)
    assert (Hcb : isTerminator cb = true) by (apply (Hterm cb qb); reflexivity).
    assert (Ha : afterTerminator cb qb = qb).
    { apply (noCRLF_afterTerminator pb cb qb (streamBytes r)).
      rewrite Happ, <- app_assoc in Hn. exact Hn. }
    assert (Hd : buf ++ streamBytes r = pb ++ cb :: (qb ++ streamBytes r))
      by (rewrite Happ, <- app_assoc; reflexivity).
    rewrite Hd, (spanLine_terminated pb cb _ Hclean Hcb). cbn [fst snd].
    rewrite Happ, (trySplit_terminated pb cb qb false Hclean Hcb), Ha.
    eexists; eexists; split; [reflexivity|].
    cbn [sc_err sc_buf sc_r sc_cap]. repeat split; try assumption.
    + cbn [sc_start]. rewrite Happ in Hc. unfold len in *.
      rewrite length_app in *. cbn [List.length] in *. lia.
    + cbn [sc_start sc_cap sc_buf]. rewrite Happ in Hc. unfold len in *.
      rewrite length_app in *. cbn [List.length] in *. lia.
Qed.

(** After the last line the scanner has nothing left, and [Scan] returns
    false. *)
Lemma scanTokens_done (fuel : nat) (s : Scanner) :
  sc_err s <> None -> sc_buf s = [] ->
  scanTokens scanLines (S fuel) s = Some [].
Proof.
  intros He Hb. cbn [scanTokens]. unfold Scan.
  destruct (sc_err s) as [e|]; [|congruence].
  rewrite Hb. reflexivity.
Qed.

Lemma shortLines_first (data : list ascii) :
  shortLines data -> len (fst (spanLine data)) < maxScanTokenSize.
Proof.
  unfold shortLines. rewrite specLines_span. cbn [rev app].
  destruct (spanLine data) as [p q]. cbn [fst snd].
  destruct q as [|c q].
  - destruct p as [|d p].
    + intros _. unfold len, maxScanTokenSize. simpl. lia.
    + intros H. inversion H. assumption.
  - intros H. inversion H. assumption.
Qed.

Lemma scanTokens_lines (fuel : nat) (s : Scanner) :
  sc_err s = None -> wfScanner s -> sc_cap s <= maxScanTokenSize ->
  noEmptyRead (sc_r s) ->
  noCRLF (sc_buf s ++ streamBytes (sc_r s)) = true ->
  shortLines (sc_buf s ++ streamBytes (sc_r s)) ->
  (List.length (sc_buf s ++ streamBytes (sc_r s)) < fuel)%nat ->
  scanTokens scanLines fuel s
  = Some (specLines [] (sc_buf s ++ streamBytes (sc_r s))).
Proof.
  revert s. induction fuel as [|fuel IH]; intros s He Hw Hcap Hr Hn Hl Hf; [lia|].
  destruct (scanLoop_line (S (List.length (streamBytes (sc_r s))))
              (sc_r s) (sc_buf s) (sc_start s) (sc_cap s))
    as [tok [s' [Hs Hres]]];
    try assumption; try lia.
  { apply shortLines_first. exact Hl. }
  cbn [scanTokens]. unfold Scan. rewrite He, Hs.
  rewrite specLines_span. cbn [rev app].
  pose proof (spanLine_app (sc_buf s ++ streamBytes (sc_r s))) as Happ.
  pose proof (spanLine_clean (sc_buf s ++ streamBytes (sc_r s))) as Hclean.
  pose proof (spanLine_terminator (sc_buf s ++ streamBytes (sc_r s))) as Hterm.
  unfold shortLines in Hl. rewrite specLines_span in Hl. cbn [rev app] in Hl.
  destruct (spanLine (sc_buf s ++ streamBytes (sc_r s))) as [p q].
  cbn [fst snd] in *.
  destruct q as [|c q].
  - (* the end of the stream *)
    rewrite app_nil_r in Happ. rewrite <- Happ.
    destruct Hres as [-> [He' Hb']].
    destruct (sc_buf s ++ streamBytes (sc_r s)) as [|d data] eqn:Ed.
    + reflexivity.
    + destruct fuel as [|fuel]; [simpl in Hf; lia|].
      rewrite (scanTokens_done fuel s' He' Hb'). reflexivity.
  - (* a line and its terminator *)
    destruct Hres as [-> [He' [Hw' [Hcap' [Hr' Hq]]]]].
    assert (Ha : afterTerminator c q = q).
    { apply (noCRLF_afterTerminator p c q []).
      rewrite app_nil_r, <- Happ. exact Hn. }
    rewrite Ha in *.
    rewrite IH; try assumption.
    + rewrite Hq. reflexivity.
    + rewrite Hq. rewrite Happ in Hn.
      apply (noCRLF_suffix (p ++ [c])). rewrite <- app_assoc. exact Hn.
    + rewrite Hq. unfold shortLines. inversion Hl. assumption.
    + rewrite Hq. rewrite Happ, length_app in Hf. cbn [List.length] in Hf. lia.
Qed.

(** X5. On a stream in which no carriage return is followed at once by a
    line feed, whose lines are shorter than 64 KiB and of which no read
    returns without a byte, the stdout processor handles the same lines
    however the stream is cut into reads: the lines that end with a line
    feed or a carriage return, and the last line that the end of the stream
    leaves without terminator. *)
Theorem frameLines_noCRLF (stdout : Stream) :
  noEmptyRead stdout ->
  noCRLF (streamBytes stdout) = true ->
  shortLines (streamBytes stdout) ->
  frameLines stdout = Some (specLines [] (streamBytes stdout)).
Proof.
  intros Hr Hn Hl. unfold frameLines.
  rewrite scanTokens_lines; try assumption; try reflexivity.
  - apply wfScanner_NewScanner.
  - unfold NewScanner, maxScanTokenSize. simpl. lia.
  - simpl. lia.
Qed.

Lemma frameLines_noCRLF_witness :
  frameLines [bytes "a" ++ [CR] ++ bytes "b"; bytes "c" ++ [CR];
              bytes "d" ++ [LF; CR]; [CR] ++ bytes "e"]
  = Some [bytes "a"; bytes "bc"; bytes "d"; []; []; bytes "e"].
Proof.
  apply (frameLines_noCRLF
           [bytes "a" ++ [CR] ++ bytes "b"; bytes "c" ++ [CR];
            bytes "d" ++ [LF; CR]; [CR] ++ bytes "e"]).
  - vm_compute. reflexivity.
  - vm_compute. reflexivity.
  - unfold shortLines. vm_compute.
    repeat constructor.
Defined.
(** ** The scanner and the reader at the limits of their buffers *)

(** A carriage return and its line feed that the first buffer of the
    scanner, of 4096 bytes, separates are framed as two terminators, within
    a single piece of data. *)
Example frameLines_CRLF_across_buffer :
  option_map (map (@List.length ascii))
    (frameLines [repeat "x"%char 4095 ++ [CR; LF] ++ bytes "b" ++ [LF]])
  = Some [4095%nat; 0%nat; 1%nat] /\
  option_map (map (@List.length ascii))
    (frameLines [repeat "x"%char 4094 ++ [CR; LF] ++ bytes "b" ++ [LF]])
  = Some [4094%nat; 1%nat].
Proof.
  split; vm_compute; reflexivity.
Qed.

(** The scanner gives up after 100 reads in a row that return no byte: with
    one more the line that follows is not seen, and what was buffered is
    the last line. *)
Example frameLines_no_progress :
  frameLines (repeat [] 100 ++ [bytes "a" ++ [LF]]) = Some [bytes "a"] /\
  frameLines (repeat [] 101 ++ [bytes "a" ++ [LF]]) = Some [] /\
  frameLines ([bytes "zz"] ++ repeat [] 101 ++ [bytes "a" ++ [LF]])
  = Some [bytes "zz"].
Proof.
  repeat split; vm_compute; reflexivity.
Qed.

(** The reader gives up at the 100th read in a row that returns no byte,
    and [processStderr] leaves its loop at this error as at the end of the
    stream. *)
Example processStderr_no_progress :
  option_map (fun t => Stderr (Task_Log t))
    (processStderr NewTask (repeat [] 99 ++ [bytes "a" ++ [LF]]))
  = Some ("a" ++ nl ++ nl)%string /\
  option_map (fun t => Stderr (Task_Log t))
    (processStderr NewTask (repeat [] 100 ++ [bytes "a" ++ [LF]]))
  = Some "".
Proof.
  split; vm_compute; reflexivity.
Qed.

(** A line of stderr longer than the buffer of the reader is kept whole. *)
Example processStderr_long_line :
  option_map (fun t => slen (Stderr (Task_Log t)))
    (processStderr NewTask
       [repeat "x"%char (Z.to_nat 5000) ++ [LF] ++ bytes "tail"])
  = Some 5002.
Proof.
  vm_compute. reflexivity.
Qed.
